(** * duml-beagle-parse: stream reassembly and request/response pairing

    A shallow embedding of [src/parse.ts] and the properties of its three
    parts: the frame extractor ([processBuffer]), the stream reassembler
    (the ["data"] handler of [parseCSV]) and the pairing engine
    ([pairPackets]).

    JavaScript strings are modelled as [string] (code units below 256),
    JavaScript numbers that hold lengths, indexes and protocol fields as
    [Z], arrays as lists, and arrays with deleted elements as lists of
    options (a hole is [None]).  The packet codec (the [duml-packet]
    library) is not part of the program: a decoded packet is the record of
    what the program reads from it, and the decoder is a parameter. *)

From Stdlib Require Import ZArith List String Ascii Bool Lia Permutation.
Import ListNotations.
Open Scope Z_scope.

(* ================================================================== *)
(** * Part I: the model *)
(* ================================================================== *)

(** ** JavaScript string and array primitives used by the program *)
Module JS.

Definition len (s : string) : Z := Z.of_nat (String.length s).

Fixpoint drop (n : nat) (s : string) : string :=
  match n, s with
  | O, _ => s
  | S _, EmptyString => EmptyString
  | S n', String _ s' => drop n' s'
  end.

Fixpoint take (n : nat) (s : string) : string :=
  match n, s with
  | O, _ => EmptyString
  | S _, EmptyString => EmptyString
  | S n', String c s' => String c (take n' s')
  end.

(** How [String.prototype.slice] turns an argument into a position:
    a negative argument counts from the end, and both are clamped. *)
Definition relIndex (n i : Z) : Z :=
  if i <? 0 then Z.max (n + i) 0 else Z.min i n.

(** [s.slice(b, e)] *)
Definition slice (s : string) (b e : Z) : string :=
  let from := relIndex (len s) b in
  let to := relIndex (len s) e in
  take (Z.to_nat (to - from)) (drop (Z.to_nat from) s).

(** [s.slice(b)] *)
Definition sliceFrom (s : string) (b : Z) : string := slice s b (len s).

(** [s.startsWith(pat)] *)
Fixpoint startsWith (pat s : string) : bool :=
  match pat with
  | EmptyString => true
  | String a pat' =>
      match s with
      | EmptyString => false
      | String b s' => Ascii.eqb a b && startsWith pat' s'
      end
  end.

(** [s.indexOf(pat)]: the first position where [pat] occurs, or [-1]. *)
Fixpoint indexOf (pat s : string) : Z :=
  if startsWith pat s then 0
  else match s with
       | EmptyString => -1
       | String _ s' => let r := indexOf pat s' in
                        if r <? 0 then -1 else r + 1
       end.

(** [s.includes(pat)] *)
Definition includes (pat s : string) : bool := negb (indexOf pat s =? -1).

(** The characters matched by the regular expression class [\s], among
    the code units below 256: tab, line feed, vertical tab, form feed,
    carriage return, space and no-break space. *)
Definition isWhiteSpace (c : ascii) : bool :=
  let n := nat_of_ascii c in
  (Nat.leb 9 n && Nat.leb n 13) || Nat.eqb n 32 || Nat.eqb n 160.

(** [s.replace(/\s+/g, "")] *)
Fixpoint removeWhiteSpace (s : string) : string :=
  match s with
  | EmptyString => EmptyString
  | String c s' => if isWhiteSpace c then removeWhiteSpace s'
                   else String c (removeWhiteSpace s')
  end.

(** An array some of whose elements were removed with [delete]. *)
Definition sparse (A : Type) : Type := list (option A).

(** [delete arr[i]]: leaves a hole at [i]; the length is unchanged, and
    nothing happens when [i] is not an index of the array. *)
Fixpoint deleteNth {A} (n : nat) (arr : sparse A) : sparse A :=
  match arr, n with
  | [], _ => []
  | _ :: rest, O => None :: rest
  | x :: rest, S n' => x :: deleteNth n' rest
  end.

Definition deleteAt {A} (i : Z) (arr : sparse A) : sparse A :=
  if i <? 0 then arr else deleteNth (Z.to_nat i) arr.

(** The elements that [filter], [map] and [forEach] visit: holes are
    skipped. *)
Fixpoint present {A} (arr : sparse A) : list A :=
  match arr with
  | [] => []
  | None :: rest => present rest
  | Some x :: rest => x :: present rest
  end.

End JS.

(** ** The decoded packet, as far as the program looks at it *)

Inductive Direction : Type := TX | RX.

Definition Direction_eqb (a b : Direction) : bool :=
  match a, b with
  | TX, TX | RX, RX => true
  | _, _ => false
  end.

(** [Packet] of [duml-packet]: the fields and methods read by
    [parse.ts].  [isValid] and [toShortString] are methods without
    arguments, so they are fields here. *)
Record Packet : Type := mkPacket {
  p_length : Z;
  commandType : Z;
  ackType : Z;
  sequenceID : Z;
  isValid : bool;
  toShortString : string
}.

(** [interface ParsedData] *)
Record ParsedData : Type := mkParsedData {
  timestamp : string;
  direction : Direction;
  packet : Packet
}.

(** [interface PacketData] *)
Record PacketData : Type := mkPacketData {
  pd_timestamp : string;
  pd_direction : Direction;
  pd_packet : string
}.

(** [interface PairedPacket] *)
Record PairedPacket : Type := mkPairedPacket {
  request : PacketData;
  response : PacketData
}.

(** [interface ParsedResult] *)
Record ParsedResult : Type := mkParsedResult {
  pairedPackets : list PairedPacket;
  unpairedPackets : list PacketData;
  singularPackets : list PacketData
}.

(** ** The pairing engine: [pairPackets] *)
Module Pairing.

(** The object literals [{ timestamp, direction, packet: ....toShortString() }]. *)
Definition toPacketData (p : ParsedData) : PacketData :=
  {| pd_timestamp := timestamp p;
     pd_direction := direction p;
     pd_packet := toShortString (packet p) |}.

(** The three filters at the head of [pairPackets]. *)
Definition isRequest (p : ParsedData) : bool :=
  (commandType (packet p) =? 0) && negb (ackType (packet p) =? 0).

Definition isAck (p : ParsedData) : bool := commandType (packet p) =? 1.

Definition isNoAck (p : ParsedData) : bool := ackType (packet p) =? 0.

(** The test inside the callback given to [ackPackets.filter]. *)
Definition matchesRequest (requestPacket p : ParsedData) : bool :=
  (sequenceID (packet p) =? sequenceID (packet requestPacket))
  && negb (Direction_eqb (direction p) (direction requestPacket)).

(** [ackPackets.filter((p, i) => { if (...) { matchedIndex = i; return p; } })]:
    the callback is called on every element that is still there, with
    its index [i]; each call that keeps an element also assigns
    [matchedIndex].  The result is the filtered array together with the
    last value assigned to [matchedIndex]. *)
Fixpoint filterMatching (requestPacket : ParsedData)
    (arr : JS.sparse ParsedData) (i : Z) (matchedIndex : Z)
    : list ParsedData * Z :=
  match arr with
  | [] => ([], matchedIndex)
  | None :: rest => filterMatching requestPacket rest (i + 1) matchedIndex
  | Some p :: rest =>
      if matchesRequest requestPacket p
      then let '(kept, m) := filterMatching requestPacket rest (i + 1) i in
           (p :: kept, m)
      else filterMatching requestPacket rest (i + 1) matchedIndex
  end.

(** The four arrays the [forEach] callback reads and writes
    ([paired] and [unpaired] are the arrays [pairedPackets] and
    [unpairedPackets] while they are being filled). *)
Record PairState : Type := mkPairState {
  ackPackets : JS.sparse ParsedData;
  requestPackets : JS.sparse ParsedData;
  paired : list PairedPacket;
  unpaired : list PacketData
}.

(** The body of the callback of [requestPackets.forEach]. *)
Definition pairRequest (requestPacket : ParsedData) (requestIndex : nat)
    (st : PairState) : PairState :=
  let '(kept, matchedIndex) :=
    filterMatching requestPacket (ackPackets st) 0 (-1) in
  let requestPacketData := toPacketData requestPacket in
  match kept with                                   (* .at(0) *)
  | matchingResponse :: _ =>
      {| ackPackets := JS.deleteAt matchedIndex (ackPackets st);
         requestPackets := JS.deleteAt (Z.of_nat requestIndex) (requestPackets st);
         paired := paired st ++
                   [ {| request := requestPacketData;
                        response := toPacketData matchingResponse |} ];
         unpaired := unpaired st |}
  | [] =>
      {| ackPackets := ackPackets st;
         requestPackets := requestPackets st;
         paired := paired st;
         unpaired := unpaired st ++ [requestPacketData] |}
  end.

(** [requestPackets.forEach(...)]: the indexes [k], [k+1], ... of the
    array are visited in turn ([n] of them); at each index the element is
    read from the array as it is at that moment, and a hole is passed
    over. *)
Fixpoint forEachRequest (n k : nat) (st : PairState) : PairState :=
  match n with
  | O => st
  | S n' =>
      let st' := match nth_error (requestPackets st) k with
                 | Some (Some requestPacket) => pairRequest requestPacket k st
                 | _ => st
                 end in
      forEachRequest n' (S k) st'
  end.

Definition startState (parsedPackets : list ParsedData) : PairState :=
  {| ackPackets := map Some (filter isAck parsedPackets);
     requestPackets := map Some (filter isRequest parsedPackets);
     paired := [];
     unpaired := [] |}.

(** The state after the [forEach] loop. *)
Definition afterLoop (parsedPackets : list ParsedData) : PairState :=
  let st := startState parsedPackets in
  forEachRequest (List.length (requestPackets st)) 0 st.

(** The two pushes that follow the loop: [arr.filter((p) => p !== null)]
    keeps every element still present (none of them is [null]). *)
Definition leftover (arr : JS.sparse ParsedData) : list PacketData :=
  if (0 <? Z.of_nat (List.length arr))
  then map toPacketData (JS.present arr)
  else [].

Definition pairPackets (parsedPackets : list ParsedData) : ParsedResult :=
  let st := afterLoop parsedPackets in
  {| pairedPackets := paired st;
     unpairedPackets :=
       (unpaired st ++ leftover (ackPackets st)) ++ leftover (requestPackets st);
     singularPackets := map toPacketData (filter isNoAck parsedPackets) |}.

(** Every entry of the three outputs, the two members of a pair counted
    separately. *)
Definition allEntries (r : ParsedResult) : list PacketData :=
  map request (pairedPackets r) ++ map response (pairedPackets r)
  ++ unpairedPackets r ++ singularPackets r.

End Pairing.

(** ** The stream reassembler and the frame extractor *)
Module Reassembly.

(** How a call can end. *)
Inductive outcome (A : Type) : Type :=
| Returns (a : A)      (* the call returns normally *)
| Throws               (* an exception leaves the call *)
| Diverges.            (* the call never returns *)
Arguments Returns {A} a.
Arguments Throws {A}.
Arguments Diverges {A}.

(** The variables captured by the ["data"] handler of [parseCSV]. *)
Record State : Type := mkState {
  results : list ParsedData;
  rxCurrentHexString : string;
  txCurrentHexString : string;
  processed : Z;
  skipped : Z
}.

Definition initial : State :=
  {| results := []; rxCurrentHexString := ""; txCurrentHexString := "";
     processed := 0; skipped := 0 |}.

(** The DirectionBuffer of a direction. *)
Definition currentHexString (d : Direction) (st : State) : string :=
  match d with
  | RX => rxCurrentHexString st
  | TX => txCurrentHexString st
  end.

(** Assignment to the buffer of direction [d]; [setBuffer direction] is
    the closure [updateBuffer] handed to [processBuffer]. *)
Definition setBuffer (d : Direction) (s : string) (st : State) : State :=
  match d with
  | RX => {| results := results st; rxCurrentHexString := s;
             txCurrentHexString := txCurrentHexString st;
             processed := processed st; skipped := skipped st |}
  | TX => {| results := results st;
             rxCurrentHexString := rxCurrentHexString st;
             txCurrentHexString := s;
             processed := processed st; skipped := skipped st |}
  end.

(** [results.push(parsedRow)] *)
Definition pushResult (parsedRow : ParsedData) (st : State) : State :=
  {| results := results st ++ [parsedRow];
     rxCurrentHexString := rxCurrentHexString st;
     txCurrentHexString := txCurrentHexString st;
     processed := processed st; skipped := skipped st |}.

(** [skipped++] *)
Definition skip (st : State) : State :=
  {| results := results st;
     rxCurrentHexString := rxCurrentHexString st;
     txCurrentHexString := txCurrentHexString st;
     processed := processed st; skipped := skipped st + 1 |}.

(** [processed++] *)
Definition countProcessed (st : State) : State :=
  {| results := results st;
     rxCurrentHexString := rxCurrentHexString st;
     txCurrentHexString := txCurrentHexString st;
     processed := processed st + 1; skipped := skipped st |}.

(** Why [processBuffer] returned, and the value of its local variable
    [hexString] at that moment. *)
Inductive Stop : Type := DecodeFailed | InvalidPacket.

Record Exit : Type := mkExit {
  exitState : State;
  exitHex : string;
  exitWhy : Stop
}.

Section Extractor.

(** [Packet.fromHexString]; [None] stands for the exception it throws. *)
Variable fromHexString : string -> option Packet.

(** Lines 141-143: the packet that is kept after a successful decode.
    The second call of the decoder is outside the [try], so its
    exception ([None]) leaves [processBuffer]. *)
Definition redecode (hexString : string) (packet : Packet) : option Packet :=
  if negb (isValid packet) && (p_length packet <? JS.len hexString * 2)
  then fromHexString (JS.slice hexString 0 (p_length packet * 2))
  else Some packet.

(** The [do ... while] loop of [processBuffer].  Each pass either leaves
    the function or goes on with a suffix of [hexString]; when the
    packet is valid and that suffix is the whole of [hexString], the next
    pass decodes the very same text and the loop never ends.  Otherwise
    the text gets shorter, so [fuel] above its length is never used up. *)
Fixpoint extractLoop (fuel : nat) (hexString : string)
    (direction : Direction) (timestamp : string) (st : State)
    : outcome Exit :=
  match fuel with
  | O => Diverges
  | S fuel' =>
      match fromHexString hexString with
      | None =>
          Returns {| exitState := st; exitHex := hexString;
                     exitWhy := DecodeFailed |}
      | Some packet0 =>
          match redecode hexString packet0 with
          | None => Throws
          | Some packet =>
              let hexString' := JS.sliceFrom hexString (p_length packet * 2) in
              let st1 := pushResult (mkParsedData timestamp direction packet) st in
              let st2 := setBuffer direction
                           (if JS.startsWith "55" hexString'
                            then hexString' else "") st1 in
              if isValid packet
              then if (JS.len hexString' <? JS.len hexString)
                   then extractLoop fuel' hexString' direction timestamp st2
                   else Diverges
              else Returns {| exitState := st2; exitHex := hexString';
                              exitWhy := InvalidPacket |}
          end
      end
  end.

Definition runExtractor (currentHexString : string)
    (direction : Direction) (timestamp : string) (st : State)
    : outcome Exit :=
  extractLoop (S (String.length currentHexString)) currentHexString
    direction timestamp st.

(** [processBuffer(currentHexString, direction, timestamp, results,
    updateBuffer)], as a function of the handler's variables. *)
Definition processBuffer (currentHexString : string)
    (direction : Direction) (timestamp : string) (st : State)
    : outcome State :=
  match runExtractor currentHexString direction timestamp st with
  | Returns e => Returns (exitState e)
  | Throws => Throws
  | Diverges => Diverges
  end.

(** Lines 65-93, which are the same text for [RX] and for [TX]: the
    search for the synchronization byte when the buffer is empty, and
    the append.  [None] is the [skipped++; return] of lines 68 and 82. *)
Definition appendChunk (d : Direction) (hexString : string) (st : State)
    : option State :=
  if JS.len (currentHexString d st) =? 0
  then if JS.indexOf "55" hexString =? -1
       then None
       else let hexString := JS.sliceFrom hexString (JS.indexOf "55" hexString) in
            Some (setBuffer d (currentHexString d st ++ hexString) st)
  else Some (setBuffer d (currentHexString d st ++ hexString) st).

(** What the handler does with a row before it calls [processBuffer]. *)
Inductive Ingest : Type :=
| Skipped (st : State)
| Failed
| Handed (direction : Direction) (timestamp : string) (st : State).

(** Lines 47-93.  [row[9]] and [row[10]] are dereferenced, so a row
    that is too short throws; [row[3]] is only stored, and exists
    whenever [row[9]] does. *)
Definition ingest (row : list string) (st : State) : Ingest :=
  match nth_error row 0 with
  | Some marker =>
      if String.eqb marker "0" then
        let timestamp := nth 3 row EmptyString in
        match nth_error row 9 with
        | None => Failed
        | Some token =>
            if negb (JS.includes "IN" token || JS.includes "OUT" token)
            then Skipped (skip st)
            else
              let direction := if JS.includes "IN" token then RX else TX in
              match nth_error row 10 with
              | None => Failed
              | Some payload =>
                  let hexString := JS.removeWhiteSpace payload in
                  if JS.len hexString =? 0 then Skipped (skip st)
                  else match appendChunk direction hexString st with
                       | None => Skipped (skip st)
                       | Some st1 =>
                           if JS.len (currentHexString direction st1) =? 0
                           then Skipped (skip st1)
                           else Handed direction timestamp st1
                       end
              end
        end
      else Skipped (skip st)
  | None => Skipped (skip st)
  end.

(** The ["data"] handler. *)
Definition onData (row : list string) (st : State) : outcome State :=
  match ingest row st with
  | Skipped st' => Returns st'
  | Failed => Throws
  | Handed direction timestamp st1 =>
      match processBuffer (currentHexString direction st1)
              direction timestamp st1 with
      | Returns st2 => Returns (countProcessed st2)
      | Throws => Throws
      | Diverges => Diverges
      end
  end.

(** The rows of the trace, delivered in order. *)
Fixpoint feed (rows : list (list string)) (st : State) : outcome State :=
  match rows with
  | [] => Returns st
  | row :: rest =>
      match onData row st with
      | Returns st' => feed rest st'
      | Throws => Throws
      | Diverges => Diverges
      end
  end.

(** [parseCSV]: the promise resolves with [results] at the end of the
    trace. *)
Definition parseCSV (rows : list (list string)) : outcome (list ParsedData) :=
  match feed rows initial with
  | Returns st => Returns (results st)
  | Throws => Throws
  | Diverges => Diverges
  end.

(** The buffers handed to [processBuffer] in the course of a run, in
    order, up to the row (if any) at which the run stops. *)
Fixpoint handedBuffers (rows : list (list string)) (st : State) : list string :=
  match rows with
  | [] => []
  | row :: rest =>
      match ingest row st with
      | Handed direction _ st1 =>
          currentHexString direction st1 ::
          match onData row st with
          | Returns st' => handedBuffers rest st'
          | _ => []
          end
      | Skipped st' => handedBuffers rest st'
      | Failed => []
      end
  end.

End Extractor.

End Reassembly.

(** ** A small codec to run the model on

    The decoder is a parameter of the model.  The examples below run it
    with this stand-in, which frames a packet the way the program
    expects: a frame opens with the synchronization byte [55], its second
    byte is the length of the whole frame in bytes.  Like a decoder that
    checks a checksum over everything it was given, it throws when the
    frame is not complete and reports a packet followed by further bytes
    as invalid. *)
Module Demo.

Definition hexDigit (c : ascii) : option Z :=
  let n := Z.of_nat (nat_of_ascii c) in
  if (48 <=? n) && (n <=? 57) then Some (n - 48)
  else if (97 <=? n) && (n <=? 102) then Some (n - 87)
  else if (65 <=? n) && (n <=? 70) then Some (n - 55)
  else None.

Definition hexByte (s : string) : option Z :=
  match s with
  | String a (String b _) =>
      match hexDigit a, hexDigit b with
      | Some x, Some y => Some (16 * x + y)
      | _, _ => None
      end
  | _ => None
  end.

Definition decode (s : string) : option Packet :=
  if JS.startsWith "55" s then
    match hexByte (JS.drop 2 s) with
    | Some n =>
        if (n <? 2) || (JS.len s <? 2 * n) then None
        else Some {| p_length := n; commandType := 0; ackType := 2;
                     sequenceID := 0;
                     isValid := (JS.len s =? 2 * n);
                     toShortString := JS.take (Z.to_nat (2 * n)) s |}
    | None => None
    end
  else None.

(** A row of the trace with marker [0], the given timestamp, direction
    token and payload, and nothing in the other columns. *)
Definition row (timestamp token payload : string) : list string :=
  ["0"; ""; ""; timestamp; ""; ""; ""; ""; ""; token; payload]%string.

End Demo.

(** ** Definitions used to state and prove the properties *)

Module PairingSpec.
Import Pairing.

(** The loop of [forEachRequest] over the requests themselves, which is
    what it comes to when the callback only deletes the element it was
    called on. *)
Fixpoint foldRequests (rs : list ParsedData) (k : nat) (st : PairState)
    : PairState :=
  match rs with
  | [] => st
  | r :: rs' => foldRequests rs' (S k) (pairRequest r k st)
  end.

(** A pair made of a candidate request of [l] and a candidate response
    of [l] that answers it. *)
Definition pairFrom (l : list ParsedData) (pr : PairedPacket) : Prop :=
  exists rq rs,
    In rq l /\ In rs l /\
    isRequest rq = true /\ isAck rs = true /\
    matchesRequest rq rs = true /\
    request pr = toPacketData rq /\ response pr = toPacketData rs.

(** An entry written for a candidate request or a candidate response of
    [l]. *)
Definition candidateFrom (l : list ParsedData) (d : PacketData) : Prop :=
  exists p, In p l /\ (isRequest p = true \/ isAck p = true)
            /\ d = toPacketData p.

(** What the loop keeps true. *)
Record loopInv (l : list ParsedData) (st : PairState) : Prop := {
  inv_acks : forall p, In p (JS.present (ackPackets st)) ->
                       In p l /\ isAck p = true;
  inv_reqs : forall p, In p (JS.present (requestPackets st)) ->
                       In p l /\ isRequest p = true;
  inv_paired : forall pr, In pr (paired st) -> pairFrom l pr;
  inv_unpaired : forall d, In d (unpaired st) ->
      exists p, In p l /\ isRequest p = true /\ d = toPacketData p
}.

(** [pr] renders two packets of [l] that have the same sequence
    identifier and opposite directions. *)
Definition matchedPair (l : list ParsedData) (pr : PairedPacket) : Prop :=
  exists rq rs,
    In rq l /\ In rs l /\
    request pr = toPacketData rq /\ response pr = toPacketData rs /\
    sequenceID (packet rq) = sequenceID (packet rs) /\
    direction rq <> direction rs.

(** The rendering tells [p] apart from the other packets of [l]. *)
Definition distinguished (l : list ParsedData) (p : ParsedData) : Prop :=
  forall q, In q l -> toPacketData q = toPacketData p -> q = p.

(** The entries of [paired] and [unpaired]. *)
Definition pairedOrUnpaired (r : ParsedResult) : list PacketData :=
  map request (pairedPackets r) ++ map response (pairedPackets r)
  ++ unpairedPackets r.

End PairingSpec.

Module ReassemblySpec.
Import Reassembly.
Local Open Scope string_scope.
Local Open Scope Z_scope.

(** The rule of the design for the packet that is accepted (section 4.1):
    when the decoded packet is invalid and its declared length, in bytes,
    is smaller than the bytes at hand (two characters each), decode the
    first [length] bytes again; otherwise keep the decoded packet. *)
Definition acceptedBySpec (fromHexString : string -> option Packet)
    (hexString : string) (packet : Packet) : option Packet :=
  if negb (isValid packet) && (p_length packet * 2 <? JS.len hexString)
  then fromHexString (JS.take (Z.to_nat (p_length packet * 2)) hexString)
  else Some packet.

(** The DirectionBuffer invariant: a buffer that is not empty begins
    with the synchronization byte. *)
Definition syncedText (s : string) : Prop :=
  s = "" \/ JS.startsWith "55" s = true.

Definition synced (st : State) : Prop :=
  forall d, syncedText (currentHexString d st).

(** [a] is what is left of [b] after some of its first characters are
    dropped. *)
Definition suffixOf (a b : string) : Prop := exists n, a = JS.drop n b.

(** The bytes of the packets produced by a call. *)
Definition totalLength (produced : list ParsedData) : Z :=
  fold_right (fun r acc => p_length (packet r) + acc) 0 produced.

(** The buffer handed to the extractor, less the bytes of the packets
    the call produced. *)
Definition withoutConsumed (handed : string) (produced : list ParsedData)
    : string :=
  JS.sliceFrom handed (2 * totalLength produced).

(** Whole bytes: an even number of hex characters. *)
Definition evenLength (s : string) : bool := Z.even (JS.len s).

Definition evenBuffers (st : State) : Prop :=
  forall d, evenLength (currentHexString d st) = true.

(** What the packets pushed by one call of the extractor that ends on a
    decode failure look like. *)
Definition producedBy (ts : string) (d : Direction) (r : ParsedData) : Prop :=
  timestamp r = ts /\ direction r = d /\ isValid (packet r) = true.


(** The four ways a row is skipped, as C10 lists them. *)
Inductive skippedRecord (st : State) (row : list string) : Prop :=
| Skip_marker :
    nth_error row 0 <> Some "0" ->
    skippedRecord st row
| Skip_direction (token : string) :
    nth_error row 0 = Some "0" ->
    nth_error row 9 = Some token ->
    JS.includes "IN" token = false -> JS.includes "OUT" token = false ->
    skippedRecord st row
| Skip_empty (token payload : string) :
    nth_error row 0 = Some "0" ->
    nth_error row 9 = Some token ->
    JS.includes "IN" token || JS.includes "OUT" token = true ->
    nth_error row 10 = Some payload ->
    JS.removeWhiteSpace payload = "" ->
    skippedRecord st row
| Skip_nosync (token payload : string) :
    nth_error row 0 = Some "0" ->
    nth_error row 9 = Some token ->
    JS.includes "IN" token || JS.includes "OUT" token = true ->
    nth_error row 10 = Some payload ->
    JS.removeWhiteSpace payload <> "" ->
    currentHexString (if JS.includes "IN" token then RX else TX) st = "" ->
    JS.indexOf "55" (JS.removeWhiteSpace payload) = -1 ->
    skippedRecord st row.

(** The texts of a list laid end to end. *)
Definition joined (l : list string) : string := fold_right String.append "" l.

(** [s] is the beginning of [f], and [f] goes on after it. *)
Definition properPrefix (s f : string) : Prop :=
  exists t, t <> "" /\ f = s ++ t.

(** What C8 needs of the decoder on the text [f] of one frame whose
    packet is [p]: the frame opens with [55], its length is the one the
    packet declares, and the packet is valid; the decoder yields [p] on
    [f]; given [f] with more text behind it, it yields [p] again or else a
    packet of the same declared length that it reports invalid; and it
    throws on every text that stops short of the end of [f]. *)
Record Framed (fromHexString : string -> option Packet)
    (f : string) (p : Packet) : Prop := {
  framed_sync : JS.startsWith "55" f = true;
  framed_length : JS.len f = p_length p * 2;
  framed_valid : isValid p = true;
  framed_exact : fromHexString f = Some p;
  framed_overread : forall rest, rest <> "" ->
    exists p0, fromHexString (f ++ rest) = Some p0 /\
               p_length p0 = p_length p /\
               (isValid p0 = true -> p0 = p);
  framed_partial : forall s, properPrefix s f -> fromHexString s = None
}.

Definition allFramed (fromHexString : string -> option Packet)
    (frames : list (string * Packet)) : Prop :=
  Forall (fun fp => Framed fromHexString (fst fp) (snd fp)) frames.

(** The sanitized payload of [row], when [row] is a payload record of
    direction [d] with a payload column. *)
Definition payloadFor (d : Direction) (row : list string) : option string :=
  match nth_error row 0, nth_error row 9, nth_error row 10 with
  | Some marker, Some token, Some payload =>
      if String.eqb marker "0"
         && (JS.includes "IN" token || JS.includes "OUT" token)
         && Direction_eqb (if JS.includes "IN" token then RX else TX) d
      then Some (JS.removeWhiteSpace payload)
      else None
  | _, _, _ => None
  end.

(** The text left in the buffer is the beginning of the next frame, or
    nothing. *)
Definition pending (rest : string) (todo : list (string * Packet)) : Prop :=
  match todo with
  | [] => rest = ""
  | (f, _) :: _ => properPrefix rest f
  end.

(** The lengths the decoder declares are counts of bytes: none is
    negative. *)
Definition lengthsAreCounts (fromHexString : string -> option Packet) : Prop :=
  forall s p, fromHexString s = Some p -> 0 <= p_length p.

(** The packets of one call, as they stand in [results]. *)
Definition stamped (ts : string) (d : Direction) (ps : list Packet)
    : list ParsedData :=
  map (mkParsedData ts d) ps.

(** [taken fromHexString hex ps rest]: the packets [ps] are what the
    design (section 4.1) takes off the front of [hex], one after another,
    and [rest] is what is left: each is the accepted packet of a
    successful decode of the text at hand, each is valid, and each moves
    the front past [length] bytes, two characters a byte. *)
Inductive taken (fromHexString : string -> option Packet)
    : string -> list Packet -> string -> Prop :=
| taken_none hex : taken fromHexString hex [] hex
| taken_next hex p0 p ps rest :
    fromHexString hex = Some p0 ->
    acceptedBySpec fromHexString hex p0 = Some p ->
    isValid p = true ->
    taken fromHexString (JS.drop (Z.to_nat (p_length p * 2)) hex) ps rest ->
    taken fromHexString hex (p :: ps) rest.

(** How a call that returns comes to its end: the decoder fails on what
    is left after the packets taken; or the next accepted packet is
    invalid, and it is the last packet of the call, its bytes passed over
    like those of the others. *)
Inductive callEnds (fromHexString : string -> option Packet) (hex : string)
    : list Packet -> string -> Stop -> Prop :=
| ends_failed ps rest :
    taken fromHexString hex ps rest ->
    fromHexString rest = None ->
    callEnds fromHexString hex ps rest DecodeFailed
| ends_invalid ps h p0 bad :
    taken fromHexString hex ps h ->
    fromHexString h = Some p0 ->
    acceptedBySpec fromHexString h p0 = Some bad ->
    isValid bad = false ->
    callEnds fromHexString hex (ps ++ [bad])
      (JS.drop (Z.to_nat (p_length bad * 2)) h) InvalidPacket.

(** Lines 153-158: a remainder is kept when it begins with [55] and
    dropped when it does not. *)
Definition keptIfSynced (rest : string) : string :=
  if JS.startsWith "55" rest then rest else "".

(** The direction read off a direction token (line 53). *)
Definition tokenDirection (token : string) : Direction :=
  if JS.includes "IN" token then RX else TX.

(** The direction and the sanitized payload of a row that gets as far as
    the buffers: a payload record with a classified direction and a
    payload that is not empty. *)
Definition chunkOf (row : list string) : option (Direction * string) :=
  match nth_error row 0, nth_error row 9, nth_error row 10 with
  | Some marker, Some token, Some payload =>
      if String.eqb marker "0"
         && (JS.includes "IN" token || JS.includes "OUT" token)
         && negb (JS.len (JS.removeWhiteSpace payload) =? 0)
      then Some (tokenDirection token, JS.removeWhiteSpace payload)
      else None
  | _, _, _ => None
  end.

(** The text appended to the buffer [old] for the chunk [c]: the chunk
    itself; or, when the buffer is empty, the chunk from its first [55]
    on, and nothing at all when it holds no [55]. *)
Definition appendedText (old c : string) : option string :=
  if JS.len old =? 0
  then if JS.indexOf "55" c =? -1 then None
       else Some (JS.drop (Z.to_nat (JS.indexOf "55" c)) c)
  else Some c.

(** What one row does to the variables of the handler.  Either the row
    is skipped: it has no chunk, or its chunk has nothing to append.  Or
    the text of its chunk is appended to the buffer of its direction and
    the extractor runs on the buffer: the packets [ps] it takes are
    added to the results under the timestamp of the row; the buffer
    stays as appended when there are none, and otherwise is the appended
    buffer less the bytes of those packets, kept if that begins with
    [55] and emptied if not; the other buffer stays. *)
Inductive rowChange (fromHexString : string -> option Packet)
    (row : list string) (st st' : State) : Prop :=
| Row_skipped :
    match chunkOf row with
    | Some (d, c) => appendedText (currentHexString d st) c = None
    | None => True
    end ->
    st' = skip st -> rowChange fromHexString row st st'
| Row_taken d c text ps rest why :
    chunkOf row = Some (d, c) ->
    appendedText (currentHexString d st) c = Some text ->
    callEnds fromHexString (currentHexString d st ++ text) ps rest why ->
    results st'
    = (results st ++ stamped (nth 3 row EmptyString) d ps)%list ->
    rest = withoutConsumed (currentHexString d st ++ text)
             (stamped (nth 3 row EmptyString) d ps) ->
    currentHexString d st'
    = match ps with
      | [] => currentHexString d st ++ text
      | _ :: _ => keptIfSynced rest
      end ->
    (forall d', d' <> d ->
       currentHexString d' st' = currentHexString d' st) ->
    processed st' = processed st + 1 ->
    skipped st' = skipped st ->
    rowChange fromHexString row st st'.

(** The text a row appends, if it appends any, is whole bytes. *)
Definition appendedEven (row : list string) (st : State) : bool :=
  match chunkOf row with
  | Some (d, c) =>
      match appendedText (currentHexString d st) c with
      | Some text => evenLength text
      | None => true
      end
  | None => true
  end.

(** Every text appended in the course of the run is whole bytes. *)
Fixpoint alignedRun (fromHexString : string -> option Packet)
    (rows : list (list string)) (st : State) : Prop :=
  match rows with
  | [] => True
  | row :: rest =>
      appendedEven row st = true /\
      forall st', onData fromHexString row st = Returns st' ->
                  alignedRun fromHexString rest st'
  end.

End ReassemblySpec.

(** Packets for the examples. *)
Module Sample.

Definition req (ts : string) (seq : Z) : ParsedData :=
  mkParsedData ts TX (mkPacket 13 0 2 seq true ("request " ++ ts)).

Definition ack (ts : string) (seq ackT : Z) : ParsedData :=
  mkParsedData ts RX (mkPacket 13 1 ackT seq true ("reply " ++ ts)).

(** A command that asks for no reply. *)
Definition notice (ts : string) (seq : Z) : ParsedData :=
  mkParsedData ts TX (mkPacket 13 0 0 seq true ("notice " ++ ts)).

Definition rendered (ts : string) (d : Direction) (text : string) : PacketData :=
  {| pd_timestamp := ts; pd_direction := d; pd_packet := text |}.

End Sample.

(** ** The whole pipeline: [parseAndPairCSV] *)
Module Pipeline.
Import Reassembly.

(** [parseAndPairCSV]: the packets [parseCSV] resolves with are handed to
    [pairPackets]; a run that does not resolve gives no result. *)
Definition parseAndPairCSV (fromHexString : string -> option Packet)
    (rows : list (list string)) : outcome ParsedResult :=
  match parseCSV fromHexString rows with
  | Returns parsedData => Returns (Pairing.pairPackets parsedData)
  | Throws => Throws
  | Diverges => Diverges
  end.

End Pipeline.

(** ** Definitions for the further properties *)
Module MoreSpec.
Import Pairing Reassembly.
Local Open Scope string_scope.
Local Open Scope Z_scope.

(** [a] is [b] with some elements left out, the others in the same
    order. *)
Inductive subseq {A : Type} : list A -> list A -> Prop :=
| subseq_nil : subseq [] []
| subseq_skip x a b : subseq a b -> subseq a (x :: b)
| subseq_keep x a b : subseq a b -> subseq (x :: a) (x :: b).

(** What a request is matched on. *)
Definition key (p : ParsedData) : Z * Direction :=
  (sequenceID (packet p), direction p).

(** The direction the handler reads off a direction token (line 53). *)
Definition directionOf (token : string) : Direction :=
  if JS.includes "IN" token then RX else TX.

(** [row] is a payload record whose timestamp and direction are
    [ts] and [d]. *)
Definition stamps (row : list string) (ts : string) (d : Direction) : Prop :=
  nth_error row 0 = Some "0" /\
  nth_error row 3 = Some ts /\
  exists token, nth_error row 9 = Some token /\ d = directionOf token.

(** A payload record that lacks a column the handler dereferences:
    [row[9]], or [row[10]] when the direction token is classified. *)
Definition shortRow (row : list string) : bool :=
  match nth_error row 0 with
  | Some marker =>
      String.eqb marker "0" &&
      match nth_error row 9 with
      | None => true
      | Some token =>
          (JS.includes "IN" token || JS.includes "OUT" token) &&
          match nth_error row 10 with
          | None => true
          | Some _ => false
          end
      end
  | None => false
  end.

(** A decoder whose valid packets take up room: a valid packet has a
    positive length and is never decoded from the empty text. *)
Definition makesProgress (fromHexString : string -> option Packet) : Prop :=
  forall s p, fromHexString s = Some p -> isValid p = true ->
              0 < p_length p /\ s <> "".

(** A decoder for which the second decode of lines 141-143 never
    throws. *)
Definition survivesTruncation (fromHexString : string -> option Packet)
    : Prop :=
  forall s p0, fromHexString s = Some p0 ->
               redecode fromHexString s p0 <> None.

End MoreSpec.

(** A second stand-in decoder: as [Demo.decode], except that a frame
    whose third byte is [ff] fails its checksum whatever is decoded with
    it. *)
Module DemoFlagged.

Definition flagged (s : string) : bool :=
  match Demo.hexByte (JS.drop 4 s) with
  | Some 255 => true
  | _ => false
  end.

Definition decode (s : string) : option Packet :=
  match Demo.decode s with
  | Some p =>
      Some {| p_length := p_length p; commandType := commandType p;
              ackType := ackType p; sequenceID := sequenceID p;
              isValid := isValid p && negb (flagged s);
              toShortString := toShortString p |}
  | None => None
  end.

(** A decoder that finds a valid packet of length 0 in every text. *)
Definition stuck (_ : string) : option Packet :=
  Some (mkPacket 0 0 2 0 true "").

End DemoFlagged.

(** ** The loop of [processBuffer], pass by pass *)
Module Passes.
Import Reassembly.

(** How one pass of the [do ... while] ends: the condition holds and
    another pass follows, the function returns, or an exception leaves
    it. *)
Inductive PassEnd : Type :=
| Goes (hexString : string) (st : State)
| Ends (e : Exit)
| Raises.

(** Lines 135-159: the body of the loop and its condition. *)
Definition onePass (fromHexString : string -> option Packet)
    (hexString : string) (direction : Direction) (timestamp : string)
    (st : State) : PassEnd :=
  match fromHexString hexString with
  | None => Ends (mkExit st hexString DecodeFailed)
  | Some packet0 =>
      match redecode fromHexString hexString packet0 with
      | None => Raises
      | Some packet =>
          let hexString' := JS.sliceFrom hexString (p_length packet * 2) in
          let st1 := pushResult (mkParsedData timestamp direction packet) st in
          let st2 := setBuffer direction
                       (if JS.startsWith "55" hexString'
                        then hexString' else "") st1 in
          if isValid packet then Goes hexString' st2
          else Ends (mkExit st2 hexString' InvalidPacket)
      end
  end.

(** [n] passes in a row, stopping at the first that ends the loop. *)
Fixpoint passes (fromHexString : string -> option Packet) (n : nat)
    (hexString : string) (direction : Direction) (timestamp : string)
    (st : State) : PassEnd :=
  match n with
  | O => Goes hexString st
  | S n' =>
      match onePass fromHexString hexString direction timestamp st with
      | Goes hexString' st' =>
          passes fromHexString n' hexString' direction timestamp st'
      | other => other
      end
  end.

End Passes.

(** A small trace for the examples: two frames arrive inbound in three
    rows; an outbound row without [55] and a header row are skipped. *)
Module SampleTrace.
Import Reassembly.

Definition rows : list (list string) :=
  [ Demo.row "t1" "IN" "5502 55";
    Demo.row "t2" "OUT" "0102";
    ["1"; "header"]%string;
    Demo.row "t3" "IN" "03 01" ].

Definition first : ParsedData :=
  mkParsedData "t1" RX (mkPacket 2 0 2 0 true "5502").

Definition second : ParsedData :=
  mkParsedData "t3" RX (mkPacket 3 0 2 0 true "550301").

Definition final : State :=
  {| results := [first; second];
     rxCurrentHexString := ""; txCurrentHexString := "";
     processed := 2; skipped := 2 |}.

(** A payload record cut off after its second column. *)
Definition cutRow : list string := ["0"; "x"]%string.

End SampleTrace.

(* ================================================================== *)
(** * Part II: properties *)
(* ================================================================== *)

(** ** Strings and sparse arrays *)

Lemma present_map_Some {A} (l : list A) : JS.present (map Some l) = l.
Proof. induction l as [|x l IH]; simpl; [reflexivity | now rewrite IH]. Qed.

Lemma present_deleteNth_incl {A} (n : nat) (arr : JS.sparse A) (x : A) :
  In x (JS.present (JS.deleteNth n arr)) -> In x (JS.present arr).
Proof.
  revert n; induction arr as [|[y|] arr IH]; intros [|n]; simpl; auto.
  - intros [->|H]; [now left | right; eauto].
  - eauto.
Qed.

Lemma present_deleteAt_incl {A} (i : Z) (arr : JS.sparse A) (x : A) :
  In x (JS.present (JS.deleteAt i arr)) -> In x (JS.present arr).
Proof.
  unfold JS.deleteAt; destruct (i <? 0); eauto using present_deleteNth_incl.
Qed.

Lemma deleteNth_app_here {A} (pre rest : JS.sparse A) (x : option A) :
  JS.deleteNth (List.length pre) (pre ++ x :: rest) = pre ++ None :: rest.
Proof. induction pre as [|y pre IH]; simpl; [reflexivity | now rewrite IH]. Qed.

Section StringFacts.
Local Open Scope string_scope.
Local Open Scope Z_scope.

Lemma len_nonneg s : 0 <= JS.len s.
Proof. unfold JS.len; lia. Qed.

Lemma length_append (a b : string) :
  String.length (a ++ b) = (String.length a + String.length b)%nat.
Proof. induction a as [|c a IH]; simpl; [reflexivity | now rewrite IH]. Qed.

Lemma len_append a b : JS.len (a ++ b) = JS.len a + JS.len b.
Proof. unfold JS.len; rewrite length_append; lia. Qed.

Lemma len_zero s : JS.len s = 0 -> s = "".
Proof. destruct s; [reflexivity | unfold JS.len; simpl; lia]. Qed.

Lemma append_nil_r (s : string) : s ++ "" = s.
Proof. induction s as [|c s IH]; simpl; [reflexivity | now rewrite IH]. Qed.

Lemma append_assoc (a b c : string) : (a ++ b) ++ c = a ++ (b ++ c).
Proof. induction a as [|x a IH]; simpl; [reflexivity | now rewrite IH]. Qed.

Lemma length_drop n : forall s,
  String.length (JS.drop n s) = (String.length s - n)%nat.
Proof. induction n as [|n IH]; intros [|c s]; simpl; auto; lia. Qed.

Lemma drop_all n : forall s, (String.length s <= n)%nat -> JS.drop n s = "".
Proof.
  induction n as [|n IH]; intros [|c s]; simpl; intros H; auto; try lia.
  apply IH; lia.
Qed.

Lemma take_all n : forall s, (String.length s <= n)%nat -> JS.take n s = s.
Proof.
  induction n as [|n IH]; intros [|c s]; simpl; intros H; auto; try lia.
  rewrite IH; [reflexivity | lia].
Qed.

Lemma drop_append a : forall b, JS.drop (String.length a) (a ++ b) = b.
Proof. induction a as [|c a IH]; intros b; simpl; auto. Qed.

Lemma take_append a : forall b, JS.take (String.length a) (a ++ b) = a.
Proof. induction a as [|c a IH]; intros b; simpl; [reflexivity | now rewrite IH]. Qed.

Lemma take_drop n : forall s, JS.take n s ++ JS.drop n s = s.
Proof. induction n as [|n IH]; intros [|c s]; simpl; auto. now rewrite IH. Qed.

Lemma drop_drop n : forall m s, JS.drop n (JS.drop m s) = JS.drop (m + n) s.
Proof.
  intros m; revert n; induction m as [|m IH]; intros n s; simpl; auto.
  destruct s as [|c s]; simpl; [now destruct n | apply IH].
Qed.

(** [s.slice(b)] is a suffix of [s], whatever [b]. *)
Lemma sliceFrom_drop s b :
  JS.sliceFrom s b = JS.drop (Z.to_nat (JS.relIndex (JS.len s) b)) s.
Proof.
  unfold JS.sliceFrom, JS.slice.
  assert (Hr : JS.relIndex (JS.len s) (JS.len s) = JS.len s).
  { unfold JS.relIndex. pose proof (len_nonneg s).
    destruct (Z.ltb_spec (JS.len s) 0); lia. }
  rewrite Hr. apply take_all. rewrite length_drop.
  unfold JS.relIndex, JS.len.
  destruct (Z.ltb_spec b 0); lia.
Qed.

Lemma sliceFrom_nonneg s b :
  0 <= b -> JS.sliceFrom s b = JS.drop (Z.to_nat b) s.
Proof.
  intros Hb. rewrite sliceFrom_drop. unfold JS.relIndex.
  destruct (Z.ltb_spec b 0); [lia|].
  destruct (Z.le_gt_cases b (JS.len s)).
  - now rewrite Z.min_l.
  - rewrite Z.min_r by lia. unfold JS.len. rewrite Nat2Z.id.
    rewrite !drop_all; auto. unfold JS.len in *; lia.
Qed.

Lemma slice_prefix s e :
  0 <= e -> JS.slice s 0 e = JS.take (Z.to_nat e) s.
Proof.
  intros He. unfold JS.slice. pose proof (len_nonneg s).
  assert (H0 : JS.relIndex (JS.len s) 0 = 0)
    by (unfold JS.relIndex; simpl; lia).
  rewrite H0. simpl JS.drop. rewrite Z.sub_0_r. unfold JS.relIndex.
  destruct (Z.ltb_spec e 0); [lia|].
  destruct (Z.le_gt_cases e (JS.len s)).
  - now rewrite Z.min_l.
  - rewrite Z.min_r by lia. unfold JS.len in *. rewrite Nat2Z.id.
    rewrite !take_all; auto; lia.
Qed.

Lemma slice_whole s e : JS.len s <= e -> JS.slice s 0 e = s.
Proof.
  intros He. pose proof (len_nonneg s). rewrite slice_prefix by lia.
  apply take_all. unfold JS.len in *; lia.
Qed.

Lemma len_sliceFrom_le s b : JS.len (JS.sliceFrom s b) <= JS.len s.
Proof. rewrite sliceFrom_drop. unfold JS.len. rewrite length_drop. lia. Qed.

Lemma startsWith_55 s :
  JS.startsWith "55" s = true <-> exists t, s = "55" ++ t.
Proof.
  split.
  - destruct s as [|a [|b t]]; cbn [JS.startsWith]; try discriminate.
    + now rewrite andb_false_r.
    + rewrite andb_true_r. intros H. apply andb_prop in H as [Ha Hb].
      apply Ascii.eqb_eq in Ha, Hb. subst. now exists t.
  - intros [t ->]. reflexivity.
Qed.

Lemma startsWith_55_append a b :
  JS.startsWith "55" a = true -> JS.startsWith "55" (a ++ b) = true.
Proof.
  intros H. apply startsWith_55 in H as [t ->]. apply startsWith_55.
  exists (t ++ b). reflexivity.
Qed.

Lemma startsWith_55_len s : JS.startsWith "55" s = true -> 2 <= JS.len s.
Proof.
  intros H. apply startsWith_55 in H as [t ->]. rewrite len_append.
  pose proof (len_nonneg t). change (JS.len "55") with 2. lia.
Qed.

Lemma indexOf_range pat s : -1 <= JS.indexOf pat s <= JS.len s.
Proof.
  induction s as [|c s IH].
  - simpl. destruct (JS.startsWith pat ""); unfold JS.len; simpl; lia.
  - change (JS.indexOf pat (String c s))
      with (if JS.startsWith pat (String c s) then 0
            else let r := JS.indexOf pat s in if r <? 0 then -1 else r + 1).
    unfold JS.len in *. simpl String.length.
    destruct (JS.startsWith pat (String c s)); [lia|]. cbv zeta.
    destruct (Z.ltb_spec (JS.indexOf pat s) 0); lia.
Qed.

(** Where [indexOf] finds the pattern, the pattern starts. *)
Lemma indexOf_found pat s :
  JS.indexOf pat s <> -1 ->
  JS.startsWith pat (JS.drop (Z.to_nat (JS.indexOf pat s)) s) = true.
Proof.
  induction s as [|c s IH].
  - simpl. destruct (JS.startsWith pat "") eqn:E; simpl; [auto | congruence].
  - change (JS.indexOf pat (String c s))
      with (if JS.startsWith pat (String c s) then 0
            else let r := JS.indexOf pat s in if r <? 0 then -1 else r + 1).
    destruct (JS.startsWith pat (String c s)) eqn:E; [simpl; auto|]. cbv zeta.
    destruct (Z.ltb_spec (JS.indexOf pat s) 0) as [Hlt|Hge]; [congruence|].
    intros _. replace (Z.to_nat (JS.indexOf pat s + 1))
      with (S (Z.to_nat (JS.indexOf pat s))) by lia.
    simpl. apply IH. lia.
Qed.

Lemma indexOf_here pat s : JS.startsWith pat s = true -> JS.indexOf pat s = 0.
Proof. intros H. destruct s; simpl; now rewrite H. Qed.

Lemma append_inv_head (a b c : string) : a ++ b = a ++ c -> b = c.
Proof. induction a as [|x a IH]; simpl; [auto | intros [= H]; auto]. Qed.

Lemma append_eq_nil (a b : string) : a ++ b = "" -> a = "" /\ b = "".
Proof. destruct a; simpl; [auto | discriminate]. Qed.

(** Two ways of cutting one text: the shorter first part begins the
    longer one. *)
Lemma append_split (a : string) : forall b c d,
  a ++ b = c ++ d -> JS.len a <= JS.len c ->
  exists t, c = a ++ t /\ b = t ++ d.
Proof.
  unfold JS.len. induction a as [|x a IH]; intros b c d H Hlen; simpl in *.
  - exists c. auto.
  - destruct c as [|y c]; simpl in *; [lia|].
    injection H as <- H. destruct (IH b c d H) as (t & -> & ->); [lia|].
    now exists t.
Qed.

Lemma startsWith_55_prefix r t :
  JS.startsWith "55" (r ++ t) = true -> 2 <= JS.len r ->
  JS.startsWith "55" r = true.
Proof.
  intros H Hlen. apply startsWith_55 in H as [u Hu]. apply startsWith_55.
  destruct r as [|a [|b r]]; unfold JS.len in Hlen; simpl in Hlen; try lia.
  simpl in Hu. injection Hu as -> -> _. now exists r.
Qed.

End StringFacts.

#[global] Arguments JS.startsWith : simpl never.
#[global] Arguments JS.indexOf : simpl never.
#[global] Arguments JS.sliceFrom : simpl never.
#[global] Arguments JS.slice : simpl never.

(** ** The pairing engine *)

Section PairingFacts.
Import Pairing PairingSpec.

Lemma filterMatching_kept rq arr i m :
  fst (filterMatching rq arr i m) = filter (matchesRequest rq) (JS.present arr).
Proof.
  revert i m; induction arr as [|[p|] arr IH]; intros i m; simpl; auto.
  destruct (matchesRequest rq p).
  - specialize (IH (i + 1) i).
    destruct (filterMatching rq arr (i + 1) i); simpl in *; now rewrite IH.
  - apply IH.
Qed.

Lemma last_default {A} (l : list A) (x d1 d2 : A) :
  last (x :: l) d1 = last (x :: l) d2.
Proof.
  revert x; induction l as [|y l IH]; intros x; [reflexivity|].
  change (last (y :: l) d1 = last (y :: l) d2). apply IH.
Qed.

(** When the filter keeps several elements, the index left in
    [matchedIndex] is the one of the last of them, not of the first. *)
Lemma filterMatching_index rq : forall arr i m,
  match fst (filterMatching rq arr i m) with
  | [] => snd (filterMatching rq arr i m) = m
  | p :: kept =>
      i <= snd (filterMatching rq arr i m) /\
      nth_error arr (Z.to_nat (snd (filterMatching rq arr i m) - i))
      = Some (Some (last (p :: kept) p))
  end.
Proof.
  assert (Hshift : forall (x : option ParsedData) rest (i m' : Z) v,
            i + 1 <= m' ->
            nth_error rest (Z.to_nat (m' - (i + 1))) = v ->
            nth_error (x :: rest) (Z.to_nat (m' - i)) = v).
  { intros x rest i m' v Hle <-.
    replace (Z.to_nat (m' - i)) with (S (Z.to_nat (m' - (i + 1)))) by lia.
    reflexivity. }
  induction arr as [|[p|] arr IH]; intros i m; simpl; [reflexivity| |].
  - destruct (matchesRequest rq p).
    + specialize (IH (i + 1) i).
      destruct (filterMatching rq arr (i + 1) i) as [kept m']; simpl in *.
      destruct kept as [|q kept].
      * subst m'. split; [lia|]. now rewrite Z.sub_diag.
      * destruct IH as [Hle Hnth]. split; [lia|].
        apply Hshift; [exact Hle|].
        rewrite Hnth. do 2 f_equal. apply last_default.
    + specialize (IH (i + 1) m).
      destruct (fst (filterMatching rq arr (i + 1) m)); [exact IH|].
      destruct IH as [Hle Hnth]. split; [lia|]. now apply Hshift.
  - specialize (IH (i + 1) m).
    destruct (fst (filterMatching rq arr (i + 1) m)); [exact IH|].
    destruct IH as [Hle Hnth]. split; [lia|]. now apply Hshift.
Qed.

(** The two ways the callback ends. *)
Lemma pairRequest_cases rq k st :
  (filter (matchesRequest rq) (JS.present (ackPackets st)) = [] /\
   pairRequest rq k st =
     {| ackPackets := ackPackets st; requestPackets := requestPackets st;
        paired := paired st;
        unpaired := unpaired st ++ [toPacketData rq] |})
  \/
  (exists rs rest m,
     filter (matchesRequest rq) (JS.present (ackPackets st)) = rs :: rest /\
     pairRequest rq k st =
       {| ackPackets := JS.deleteAt m (ackPackets st);
          requestPackets := JS.deleteAt (Z.of_nat k) (requestPackets st);
          paired := paired st ++
                    [ {| request := toPacketData rq;
                         response := toPacketData rs |} ];
          unpaired := unpaired st |}).
Proof.
  unfold pairRequest.
  pose proof (filterMatching_kept rq (ackPackets st) 0 (-1)) as Hk.
  destruct (filterMatching rq (ackPackets st) 0 (-1)) as [kept m]; simpl in Hk.
  destruct kept as [|rs rest].
  - left; split; [now symmetry | reflexivity].
  - right; exists rs, rest, m; split; [now symmetry | reflexivity].
Qed.

Lemma forEachRequest_fold rs : forall pre st,
  requestPackets st = pre ++ map Some rs ->
  forEachRequest (List.length rs) (List.length pre) st
  = foldRequests rs (List.length pre) st.
Proof.
  induction rs as [|r rs IH]; intros pre st Harr; simpl; [reflexivity|].
  assert (Hnth : nth_error (requestPackets st) (List.length pre) = Some (Some r)).
  { rewrite Harr; simpl. rewrite nth_error_app2, Nat.sub_diag by lia.
    reflexivity. }
  rewrite Hnth.
  assert (Hnext : exists x,
            requestPackets (pairRequest r (List.length pre) st)
            = (pre ++ [x]) ++ map Some rs).
  { destruct (pairRequest_cases r (List.length pre) st)
      as [[_ ->]|(rs0 & rest & m & _ & ->)]; simpl.
    - exists (Some r). now rewrite Harr, <- app_assoc.
    - exists None. rewrite Harr; simpl. unfold JS.deleteAt.
      destruct (Z.ltb_spec (Z.of_nat (List.length pre)) 0) as [?|_]; [lia|].
      now rewrite Nat2Z.id, deleteNth_app_here, <- app_assoc. }
  destruct Hnext as [x Hx].
  specialize (IH (pre ++ [x]) _ Hx).
  rewrite length_app in IH; simpl in IH.
  replace (List.length pre + 1)%nat with (S (List.length pre)) in IH by lia.
  exact IH.
Qed.

Lemma afterLoop_fold l :
  afterLoop l = foldRequests (filter isRequest l) 0 (startState l).
Proof.
  unfold afterLoop. simpl requestPackets. rewrite length_map.
  apply (forEachRequest_fold (filter isRequest l) [] (startState l)).
  reflexivity.
Qed.

Lemma loopInv_start l : loopInv l (startState l).
Proof.
  constructor; simpl; try contradiction; intros p; rewrite present_map_Some;
    intros H; apply filter_In in H; exact H.
Qed.

Lemma loopInv_step l rq k st :
  In rq l -> isRequest rq = true ->
  loopInv l st -> loopInv l (pairRequest rq k st).
Proof.
  intros Hin Hreq [Ha Hr Hp Hu].
  destruct (pairRequest_cases rq k st)
    as [[_ ->]|(rs & rest & m & Hf & ->)]; constructor; simpl; auto.
  - intros d Hd. apply in_app_or in Hd as [Hd|[<-|[]]]; eauto.
  - intros p Hp'. apply Ha. eapply present_deleteAt_incl; eauto.
  - intros p Hp'. apply Hr. eapply present_deleteAt_incl; eauto.
  - intros pr Hpr. apply in_app_or in Hpr as [Hpr|[<-|[]]]; auto.
    assert (Hrs : In rs (filter (matchesRequest rq) (JS.present (ackPackets st))))
      by (rewrite Hf; now left).
    apply filter_In in Hrs as [Hrs Hm]. destruct (Ha _ Hrs) as [? ?].
    exists rq, rs; simpl; repeat split; auto.
Qed.

Lemma loopInv_fold l rs : forall k st,
  (forall r, In r rs -> In r l /\ isRequest r = true) ->
  loopInv l st -> loopInv l (foldRequests rs k st).
Proof.
  induction rs as [|r rs IH]; intros k st Hrs Hinv; simpl; auto.
  apply IH; [intros; apply Hrs; now right|].
  destruct (Hrs r (or_introl eq_refl)); now apply loopInv_step.
Qed.

Lemma loopInv_afterLoop l : loopInv l (afterLoop l).
Proof.
  rewrite afterLoop_fold. apply loopInv_fold; [|apply loopInv_start].
  intros r Hr; now apply filter_In in Hr.
Qed.

(** Each request handled by the loop lands once, in [paired] or in
    [unpaired]. *)
Lemma foldRequests_perm rs : forall k st,
  Permutation
    (map request (paired (foldRequests rs k st))
     ++ unpaired (foldRequests rs k st))
    ((map request (paired st) ++ unpaired st) ++ map toPacketData rs).
Proof.
  induction rs as [|r rs IH]; intros k st; simpl.
  - now rewrite app_nil_r.
  - rewrite IH.
    replace ((map request (paired st) ++ unpaired st)
             ++ toPacketData r :: map toPacketData rs)
      with (((map request (paired st) ++ unpaired st) ++ [toPacketData r])
            ++ map toPacketData rs)
      by (now rewrite <- app_assoc).
    apply Permutation_app_tail.
    destruct (pairRequest_cases r k st)
      as [[_ ->]|(rs0 & rest & m & _ & ->)]; simpl.
    + now rewrite app_assoc.
    + rewrite map_app; simpl. rewrite <- !app_assoc.
      apply Permutation_app_head. simpl. apply Permutation_cons_append.
Qed.

Lemma leftover_present arr d :
  In d (leftover arr) -> exists p, In p (JS.present arr) /\ d = toPacketData p.
Proof.
  unfold leftover. destruct (0 <? Z.of_nat (List.length arr)); [|contradiction].
  intros H; apply in_map_iff in H as (p & <- & Hp); eauto.
Qed.

Lemma unpairedPackets_candidates l d :
  In d (unpairedPackets (pairPackets l)) -> candidateFrom l d.
Proof.
  destruct (loopInv_afterLoop l) as [Ha Hr _ Hu]. simpl.
  intros H. apply in_app_or in H as [H|H]; [apply in_app_or in H as [H|H]|].
  - destruct (Hu _ H) as (p & ? & ? & ->). exists p; auto.
  - apply leftover_present in H as (p & Hp & ->).
    destruct (Ha _ Hp). exists p; auto.
  - apply leftover_present in H as (p & Hp & ->).
    destruct (Hr _ Hp). exists p; auto.
Qed.

(** Where the entries of [paired] and [unpaired] come from. *)
Lemma pairedOrUnpaired_candidates l d :
  In d (pairedOrUnpaired (pairPackets l)) -> candidateFrom l d.
Proof.
  unfold pairedOrUnpaired. intros H.
  apply in_app_or in H as [H|H]; [|apply in_app_or in H as [H|H]].
  - apply in_map_iff in H as (pr & <- & Hpr).
    destruct (inv_paired _ _ (loopInv_afterLoop l) pr Hpr)
      as (rq & rs & ? & ? & ? & ? & ? & -> & ?).
    exists rq; auto.
  - apply in_map_iff in H as (pr & <- & Hpr).
    destruct (inv_paired _ _ (loopInv_afterLoop l) pr Hpr)
      as (rq & rs & ? & ? & ? & ? & ? & ? & ->).
    exists rs; auto.
  - now apply unpairedPackets_candidates.
Qed.

Lemma matchesRequest_spec rq rs :
  matchesRequest rq rs = true ->
  sequenceID (packet rq) = sequenceID (packet rs) /\
  direction rq <> direction rs.
Proof.
  unfold matchesRequest. intros H. apply andb_prop in H as [Hs Hd].
  apply Z.eqb_eq in Hs. split; [congruence|].
  intros E. rewrite E in Hd. now destruct (direction rs).
Qed.

End PairingFacts.

(** *** Claims on [pairPackets] *)

Section PairingClaims.
Import Pairing PairingSpec.

(** C4.  Every pair emitted by [pairPackets] renders a request and a
    response of the input that have equal [sequenceID] and opposite
    directions; the directions written in the pair differ too (one is
    [RX], the other [TX]). *)
Theorem C4_pairs_match (l : list ParsedData) (pr : PairedPacket) :
  In pr (pairedPackets (pairPackets l)) ->
  matchedPair l pr /\
  pd_direction (request pr) <> pd_direction (response pr).
Proof.
  intros Hpr.
  destruct (inv_paired _ _ (loopInv_afterLoop l) pr Hpr)
    as (rq & rs & Hq & Hs & _ & _ & Hm & Erq & Ers).
  apply matchesRequest_spec in Hm as [Hseq Hdir].
  split.
  - exists rq, rs; auto 7.
  - rewrite Erq, Ers; exact Hdir.
Qed.

Lemma C4_pairs_match_witness :
  matchedPair [Sample.req "1" 7; Sample.ack "2" 7 0]
    {| request := Sample.rendered "1" TX "request 1";
       response := Sample.rendered "2" RX "reply 2" |}
  /\ TX <> RX.
Proof.
  apply (C4_pairs_match [Sample.req "1" 7; Sample.ack "2" 7 0]
           {| request := Sample.rendered "1" TX "request 1";
              response := Sample.rendered "2" RX "reply 2" |}).
  simpl. left. reflexivity.
Defined.

(** C3, as stated, fails: a reply (commandType 1) whose ackType is 0 is a
    candidate response, so besides [singular] it is written to
    [unpaired] (or to a pair). *)
Lemma C3_counterexample :
  In (Sample.ack "1" 7 0) [Sample.ack "1" 7 0] /\
  isNoAck (Sample.ack "1" 7 0) = true /\
  In (toPacketData (Sample.ack "1" 7 0))
     (unpairedPackets (pairPackets [Sample.ack "1" 7 0])).
Proof. simpl. auto. Qed.

(** C3, amended.  Every packet with [ackType == 0] is emitted in
    [singular] whatever its [commandType]; it is never the request of a
    pair, and it appears in [paired] or [unpaired] only if its
    [commandType] is 1, in which case it is also a candidate response.
    (An entry is told to be "of" a packet by its rendering, so the packet
    has to be distinguished from the others by it.) *)
Theorem C3_singular_amended (l : list ParsedData) (p : ParsedData) :
  In p l -> isNoAck p = true ->
  In (toPacketData p) (singularPackets (pairPackets l)) /\
  (distinguished l p ->
     ~ In (toPacketData p) (map request (pairedPackets (pairPackets l)))) /\
  (distinguished l p -> isAck p = false ->
     ~ In (toPacketData p) (pairedOrUnpaired (pairPackets l))).
Proof.
  intros Hin Hno.
  assert (Hnr : isRequest p = false).
  { unfold isRequest. unfold isNoAck in Hno. rewrite Hno.
    now rewrite andb_false_r. }
  split; [|split].
  - simpl. apply in_map, filter_In; auto.
  - intros Hd H. apply in_map_iff in H as (pr & E & Hpr).
    destruct (inv_paired _ _ (loopInv_afterLoop l) pr Hpr)
      as (rq & rs & Hq & _ & Hrq & _ & _ & Erq & _).
    rewrite Erq in E. apply Hd in E; auto. congruence.
  - intros Hd Hna H. apply pairedOrUnpaired_candidates in H as (q & Hq & Hc & E).
    symmetry in E. apply Hd in E; auto. subst q.
    destruct Hc; congruence.
Qed.

Lemma C3_singular_amended_witness :
  In (toPacketData (Sample.notice "1" 7))
     (singularPackets (pairPackets [Sample.notice "1" 7; Sample.req "2" 7])) /\
  ~ In (toPacketData (Sample.notice "1" 7))
       (map request (pairedPackets
          (pairPackets [Sample.notice "1" 7; Sample.req "2" 7]))) /\
  ~ In (toPacketData (Sample.notice "1" 7))
       (pairedOrUnpaired
          (pairPackets [Sample.notice "1" 7; Sample.req "2" 7])).
Proof.
  destruct (C3_singular_amended
              [Sample.notice "1" 7; Sample.req "2" 7] (Sample.notice "1" 7)
              (or_introl eq_refl) eq_refl) as (H1 & H2 & H3).
  assert (Hd : distinguished [Sample.notice "1" 7; Sample.req "2" 7]
                 (Sample.notice "1" 7)).
  { intros q [<-|[<-|[]]]; [reflexivity | discriminate]. }
  split; [exact H1 | split; [exact (H2 Hd) | exact (H3 Hd eq_refl)]].
Defined.

(** C1, as stated, fails: the reply below has [ackType == 0], so it is
    written once to [singular] and once more to [unpaired]; the outputs
    hold two entries for one packet. *)
Lemma C1_counterexample :
  allEntries (pairPackets [Sample.ack "1" 7 0])
  = [Sample.rendered "1" RX "reply 1"; Sample.rendered "1" RX "reply 1"]
  /\ ~ Permutation (map toPacketData [Sample.ack "1" 7 0])
                   (allEntries (pairPackets [Sample.ack "1" 7 0])).
Proof.
  split; [reflexivity|].
  intros H. apply Permutation_length in H. discriminate H.
Qed.

(** C1, amended.  The singular set holds the packets with
    [ackType == 0], each once and in input order.  Every candidate
    request is accounted for once by the loop: the requests of the pairs
    together with the entries the loop wrote to [unpaired] are the
    candidate requests, each once.  Every pair renders a candidate
    request and a candidate response that answers it, and what follows in
    [unpaired] renders candidate requests or responses.  The outputs are
    not disjoint: a packet with [commandType == 1] and [ackType == 0] is
    singular and a candidate response at once. *)
Theorem C1_accounting_amended (l : list ParsedData) :
  singularPackets (pairPackets l) = map toPacketData (filter isNoAck l) /\
  (exists u rest,
     unpairedPackets (pairPackets l) = u ++ rest /\
     Permutation (map request (pairedPackets (pairPackets l)) ++ u)
                 (map toPacketData (filter isRequest l)) /\
     Forall (candidateFrom l) rest) /\
  Forall (pairFrom l) (pairedPackets (pairPackets l)).
Proof.
  split; [reflexivity|split].
  - exists (unpaired (afterLoop l)),
           (leftover (ackPackets (afterLoop l))
            ++ leftover (requestPackets (afterLoop l))).
    split; [simpl; now rewrite app_assoc|split].
    + simpl. rewrite afterLoop_fold.
      etransitivity; [apply foldRequests_perm|]. reflexivity.
    + apply Forall_forall. intros d Hd.
      apply unpairedPackets_candidates. simpl.
      rewrite <- app_assoc. apply in_or_app. now right.
  - apply Forall_forall. intros pr Hpr.
    exact (inv_paired _ _ (loopInv_afterLoop l) pr Hpr).
Qed.

(** C2: the failing input.  Two requests and two replies, all with
    sequence identifier 7.  The claim pairs the first request with the
    first reply and the second request with the second reply.  The
    program pairs both requests with the first reply: the index it
    deletes after the first match is the one of the last qualifying
    reply, which is never emitted. *)
Theorem C2_last_match_deleted :
  pairPackets [Sample.req "1" 7; Sample.req "2" 7;
               Sample.ack "3" 7 1; Sample.ack "4" 7 1]
  = {| pairedPackets :=
         [ {| request := Sample.rendered "1" TX "request 1";
              response := Sample.rendered "3" RX "reply 3" |};
           {| request := Sample.rendered "2" TX "request 2";
              response := Sample.rendered "3" RX "reply 3" |} ];
       unpairedPackets := [];
       singularPackets := [] |}.
Proof. reflexivity. Qed.

End PairingClaims.

(** ** The frame extractor and the stream reassembler *)

Section ReassemblyClaims.
Import Reassembly ReassemblySpec.
Local Open Scope string_scope.
Local Open Scope Z_scope.

Variable fromHexString : string -> option Packet.

Lemma currentHexString_setBuffer d s st :
  currentHexString d (setBuffer d s st) = s.
Proof. now destruct d. Qed.

Lemma currentHexString_setBuffer_other d d' s st :
  d' <> d -> currentHexString d' (setBuffer d s st) = currentHexString d' st.
Proof. destruct d, d'; simpl; congruence. Qed.

Lemma currentHexString_pushResult d r st :
  currentHexString d (pushResult r st) = currentHexString d st.
Proof. now destruct d. Qed.

Lemma results_setBuffer d s st : results (setBuffer d s st) = results st.
Proof. now destruct d. Qed.

(** A rule for the loop: [P] holds of the local [hexString] and the
    state at the head of each pass, [Q] of the way the call returns. *)
Lemma extractLoop_rule d ts (P : string -> State -> Prop) (Q : Exit -> Prop) :
  (forall hex st, P hex st -> fromHexString hex = None ->
     Q (mkExit st hex DecodeFailed)) ->
  (forall hex st p0 p, P hex st ->
     fromHexString hex = Some p0 -> redecode fromHexString hex p0 = Some p ->
     let hex' := JS.sliceFrom hex (p_length p * 2) in
     let st2 := setBuffer d (if JS.startsWith "55" hex' then hex' else "")
                  (pushResult (mkParsedData ts d p) st) in
     (isValid p = false -> Q (mkExit st2 hex' InvalidPacket)) /\
     (isValid p = true -> JS.len hex' < JS.len hex -> P hex' st2)) ->
  forall fuel hex st e,
    P hex st -> extractLoop fromHexString fuel hex d ts st = Returns e -> Q e.
Proof.
  intros Hfail Hpass. induction fuel as [|fuel IH]; intros hex st e HP; simpl.
  - discriminate.
  - destruct (fromHexString hex) as [p0|] eqn:Hdec.
    + destruct (redecode fromHexString hex p0) as [p|] eqn:Hre; [|discriminate].
      destruct (Hpass hex st p0 p HP Hdec Hre) as [Hinv Hval].
      destruct (isValid p).
      * destruct (Z.ltb_spec (JS.len (JS.sliceFrom hex (p_length p * 2)))
                             (JS.len hex)); [|discriminate].
        apply IH. now apply Hval.
      * intros [= <-]. now apply Hinv.
    + intros [= <-]. now apply Hfail.
Qed.

(** Fuel above the length of the text is never used up: the result does
    not depend on it. *)
Lemma extractLoop_fuel d ts : forall fuel1 fuel2 hex st,
  (String.length hex < fuel1)%nat -> (String.length hex < fuel2)%nat ->
  extractLoop fromHexString fuel1 hex d ts st
  = extractLoop fromHexString fuel2 hex d ts st.
Proof.
  induction fuel1 as [|fuel1 IH]; intros fuel2 hex st H1 H2; [lia|].
  destruct fuel2 as [|fuel2]; [lia|]. simpl.
  destruct (fromHexString hex) as [p0|]; [|reflexivity].
  destruct (redecode fromHexString hex p0) as [p|]; [|reflexivity].
  destruct (isValid p); [|reflexivity].
  destruct (Z.ltb_spec (JS.len (JS.sliceFrom hex (p_length p * 2)))
                       (JS.len hex)) as [Hlt|]; [|reflexivity].
  unfold JS.len in Hlt. apply IH; lia.
Qed.

Lemma syncedText_checked s :
  syncedText (if JS.startsWith "55" s then s else "").
Proof. destruct (JS.startsWith "55" s) eqn:E; [now right | now left]. Qed.

Lemma synced_setBuffer d s st :
  synced st -> syncedText s -> synced (setBuffer d s st).
Proof.
  intros Hst Hs d'. destruct d, d'; simpl; auto; apply (Hst RX) || apply (Hst TX).
Qed.

Lemma synced_pushResult r st : synced st -> synced (pushResult r st).
Proof. intros H d; rewrite currentHexString_pushResult; apply H. Qed.

Lemma synced_skip st : synced st -> synced (skip st).
Proof. intros H d; destruct d; [apply (H TX) | apply (H RX)]. Qed.

Lemma synced_countProcessed st : synced st -> synced (countProcessed st).
Proof. intros H d; destruct d; [apply (H TX) | apply (H RX)]. Qed.

Lemma extractLoop_synced fuel hex d ts st e :
  synced st ->
  extractLoop fromHexString fuel hex d ts st = Returns e ->
  synced (exitState e).
Proof.
  apply (extractLoop_rule d ts (fun _ st => synced st)
           (fun e => synced (exitState e))).
  - auto.
  - intros hex0 st0 p0 p Hst _ _ hex' st2.
    assert (synced st2).
    { apply synced_setBuffer; [now apply synced_pushResult|].
      apply syncedText_checked. }
    split; auto.
Qed.

(** After a chunk is appended the buffer begins with the
    synchronization byte. *)
Lemma appendChunk_synced d hexString st st1 :
  synced st -> hexString <> "" ->
  appendChunk d hexString st = Some st1 ->
  synced st1 /\ JS.startsWith "55" (currentHexString d st1) = true.
Proof.
  intros Hst Hne. unfold appendChunk.
  assert (Hgo : forall t, JS.startsWith "55" t = true ->
            synced (setBuffer d t st) /\
            JS.startsWith "55" (currentHexString d (setBuffer d t st)) = true).
  { intros t Ht. rewrite currentHexString_setBuffer. split; auto.
    apply synced_setBuffer; auto. now right. }
  destruct (Z.eqb_spec (JS.len (currentHexString d st)) 0) as [Hz|Hnz].
  - destruct (Z.eqb_spec (JS.indexOf "55" hexString) (-1)) as [|Hi];
      [discriminate|].
    intros [= <-]. apply Hgo. rewrite (len_zero _ Hz). cbn [String.append].
    pose proof (indexOf_range "55" hexString).
    rewrite sliceFrom_nonneg by lia. now apply indexOf_found.
  - intros [= <-]. apply Hgo. apply startsWith_55_append.
    destruct (Hst d) as [E|E]; [|exact E].
    rewrite E in Hnz. now elim Hnz.
Qed.

Lemma ingest_synced row st :
  synced st ->
  match ingest row st with
  | Skipped st' => synced st'
  | Failed => True
  | Handed d _ st1 =>
      synced st1 /\ JS.startsWith "55" (currentHexString d st1) = true
  end.
Proof.
  intros Hst. unfold ingest.
  destruct (nth_error row 0) as [marker|]; [|now apply synced_skip].
  destruct (String.eqb marker "0"); [|now apply synced_skip].
  destruct (nth_error row 9) as [token|]; [|exact I].
  destruct (negb _); [now apply synced_skip|].
  destruct (nth_error row 10) as [payload|]; [|exact I].
  destruct (Z.eqb_spec (JS.len (JS.removeWhiteSpace payload)) 0) as [|Hne];
    [now apply synced_skip|].
  set (d := if JS.includes "IN" token then RX else TX).
  destruct (appendChunk d (JS.removeWhiteSpace payload) st) as [st1|] eqn:Ha;
    [|now apply synced_skip].
  apply appendChunk_synced in Ha as [H1 H2]; auto.
  - destruct (JS.len (currentHexString d st1) =? 0); [now apply synced_skip|].
    auto.
  - intros E. rewrite E in Hne. now elim Hne.
Qed.

Lemma onData_synced row st st' :
  synced st -> onData fromHexString row st = Returns st' -> synced st'.
Proof.
  intros Hst. unfold onData, processBuffer, runExtractor.
  pose proof (ingest_synced row st Hst) as Hi.
  destruct (ingest row st) as [st0| |d ts st1].
  - now intros [= <-].
  - discriminate.
  - destruct Hi as [H1 _].
    destruct (extractLoop _ _ _ _ _ _) as [e| |] eqn:He; try discriminate.
    intros [= <-]. apply synced_countProcessed.
    eapply extractLoop_synced; eauto.
Qed.

Lemma feed_synced rows : forall st st',
  synced st -> feed fromHexString rows st = Returns st' -> synced st'.
Proof.
  induction rows as [|row rows IH]; intros st st' Hst; simpl.
  - now intros [= <-].
  - destruct (onData fromHexString row st) as [st1| |] eqn:E; try discriminate.
    apply IH. eapply onData_synced; eauto.
Qed.

Lemma handedBuffers_synced rows : forall st,
  synced st ->
  Forall (fun b => JS.startsWith "55" b = true)
         (handedBuffers fromHexString rows st).
Proof.
  induction rows as [|row rows IH]; intros st Hst; simpl; [constructor|].
  pose proof (ingest_synced row st Hst) as Hi.
  destruct (ingest row st) as [st0| |d ts st1] eqn:Ei; cbv beta iota in Hi;
    [now apply IH | constructor |].
  destruct Hi as [H1 H2]. constructor; [exact H2|].
  destruct (onData fromHexString row st) as [st'| |] eqn:E;
    [|constructor..].
  apply IH. exact (onData_synced row st st' Hst E).
Qed.

Lemma suffixOf_refl s : suffixOf s s.
Proof. now exists O. Qed.

Lemma suffixOf_trans a b c : suffixOf a b -> suffixOf b c -> suffixOf a c.
Proof. intros [n ->] [m ->]. exists (m + n)%nat. apply drop_drop. Qed.

Lemma suffixOf_nil s : suffixOf "" s.
Proof. exists (String.length s). symmetry. now apply drop_all. Qed.

Lemma suffixOf_sliceFrom s b : suffixOf (JS.sliceFrom s b) s.
Proof. rewrite sliceFrom_drop. now eexists. Qed.

Lemma suffixOf_checked s t :
  suffixOf s t -> suffixOf (if JS.startsWith "55" s then s else "") t.
Proof. destruct (JS.startsWith "55" s); auto using suffixOf_nil. Qed.

Lemma currentHexString_skip d st :
  currentHexString d (skip st) = currentHexString d st.
Proof. now destruct d. Qed.

Lemma currentHexString_countProcessed d st :
  currentHexString d (countProcessed st) = currentHexString d st.
Proof. now destruct d. Qed.

(** The extractor writes to the buffer of its own direction only, and
    what it writes there is a suffix of the text it was handed. *)
Lemma extractLoop_buffers fuel hex d ts st e :
  extractLoop fromHexString fuel hex d ts st = Returns e ->
  (forall d', d' <> d ->
     currentHexString d' (exitState e) = currentHexString d' st) /\
  (currentHexString d (exitState e) = currentHexString d st \/
   suffixOf (currentHexString d (exitState e)) hex).
Proof.
  apply (extractLoop_rule d ts
    (fun h s => suffixOf h hex /\
       (forall d', d' <> d -> currentHexString d' s = currentHexString d' st) /\
       (currentHexString d s = currentHexString d st \/
        suffixOf (currentHexString d s) hex))
    (fun e => (forall d', d' <> d ->
                 currentHexString d' (exitState e) = currentHexString d' st) /\
              (currentHexString d (exitState e) = currentHexString d st \/
               suffixOf (currentHexString d (exitState e)) hex))).
  - intros h s (_ & H1 & H2) _. auto.
  - intros h s p0 p (Hh & H1 & H2) _ _ hex' st2.
    assert (Hh' : suffixOf hex' hex)
      by (eapply suffixOf_trans; [apply suffixOf_sliceFrom | exact Hh]).
    assert (Ho : forall d', d' <> d ->
              currentHexString d' st2 = currentHexString d' st).
    { intros d' Hd. unfold st2.
      rewrite currentHexString_setBuffer_other, currentHexString_pushResult; auto. }
    assert (Hd : suffixOf (currentHexString d st2) hex).
    { unfold st2. rewrite currentHexString_setBuffer.
      now apply suffixOf_checked. }
    split; intros; auto.
  - repeat split; auto using suffixOf_refl.
Qed.

Lemma appendChunk_grown d hexString st st1 :
  appendChunk d hexString st = Some st1 ->
  (exists c, suffixOf c hexString /\
             currentHexString d st1 = currentHexString d st ++ c) /\
  (forall d', d' <> d -> currentHexString d' st1 = currentHexString d' st).
Proof.
  unfold appendChunk.
  destruct (JS.len (currentHexString d st) =? 0);
    [destruct (JS.indexOf "55" hexString =? -1); [discriminate|]|];
    intros [= <-]; rewrite currentHexString_setBuffer; split;
    eauto using suffixOf_sliceFrom, suffixOf_refl,
                currentHexString_setBuffer_other.
Qed.

Lemma evenLength_append a b :
  evenLength a = true -> evenLength b = true -> evenLength (a ++ b) = true.
Proof.
  unfold evenLength. rewrite len_append, Z.even_add. now intros -> ->.
Qed.

Lemma evenLength_sliceFrom s k :
  evenLength s = true -> Z.even k = true ->
  evenLength (JS.sliceFrom s k) = true.
Proof.
  unfold evenLength. intros Hs Hk. rewrite sliceFrom_drop.
  unfold JS.len in *. rewrite length_drop.
  apply Z.even_spec in Hs as [a Ha]. apply Z.even_spec in Hk as [b Hb].
  apply Z.even_spec. unfold JS.relIndex.
  destruct (Z.ltb_spec k 0).
  - destruct (Z.le_gt_cases 0 (Z.of_nat (String.length s) + k)).
    + exists (- b). lia.
    + exists a. lia.
  - destruct (Z.le_gt_cases k (Z.of_nat (String.length s))).
    + exists (a - b). lia.
    + exists 0. lia.
Qed.

Lemma evenLength_checked s :
  evenLength s = true ->
  evenLength (if JS.startsWith "55" s then s else "") = true.
Proof. now destruct (JS.startsWith "55" s). Qed.

Lemma evenBuffers_setBuffer d s st :
  evenBuffers st -> evenLength s = true -> evenBuffers (setBuffer d s st).
Proof.
  intros Hst Hs d'. destruct d, d'; simpl; auto; apply (Hst RX) || apply (Hst TX).
Qed.

Lemma extractLoop_even fuel hex d ts st e :
  evenLength hex = true -> evenBuffers st ->
  extractLoop fromHexString fuel hex d ts st = Returns e ->
  evenBuffers (exitState e).
Proof.
  intros Hh Hst.
  apply (extractLoop_rule d ts
           (fun h s => evenLength h = true /\ evenBuffers s)
           (fun e => evenBuffers (exitState e))); [| |auto].
  - now intros h s [_ Hs] _.
  - intros h s p0 p [Hh0 Hs] _ _ hex' st2.
    assert (Hh' : evenLength hex' = true).
    { apply evenLength_sliceFrom; auto.
      rewrite Z.even_mul. apply orb_true_r. }
    assert (evenBuffers st2).
    { apply evenBuffers_setBuffer; [|now apply evenLength_checked].
      intros d'. rewrite currentHexString_pushResult. apply Hs. }
    split; auto.
Qed.

Lemma evenBuffers_skip st : evenBuffers st -> evenBuffers (skip st).
Proof. intros H d. rewrite currentHexString_skip. apply H. Qed.

(** Lines 141-143 against the rule of the design.  The guard of the
    program, [length < 2 * characters], is wider than "fewer bytes than
    the buffer holds"; in the cases it adds the slice is the whole buffer,
    and decoding that again gives the packet already at hand. *)
Lemma redecode_acceptedBySpec (hexString : string) (packet : Packet) :
  fromHexString hexString = Some packet ->
  0 <= p_length packet ->
  redecode fromHexString hexString packet
  = acceptedBySpec fromHexString hexString packet.
Proof.
  intros Hdec Hlen. unfold redecode, acceptedBySpec.
  pose proof (len_nonneg hexString) as Hn.
  destruct (isValid packet); simpl; [reflexivity|].
  destruct (Z.ltb_spec (p_length packet * 2) (JS.len hexString)) as [Hlt|Hge].
  - destruct (Z.ltb_spec (p_length packet) (JS.len hexString * 2)); [|lia].
    now rewrite slice_prefix by lia.
  - destruct (Z.ltb_spec (p_length packet) (JS.len hexString * 2)); [|reflexivity].
    now rewrite slice_whole by lia.
Qed.

Lemma appendChunk_nonempty d hexString st st1 :
  hexString <> "" ->
  appendChunk d hexString st = Some st1 ->
  JS.len (currentHexString d st1) <> 0.
Proof.
  intros Hne. unfold appendChunk.
  destruct (Z.eqb_spec (JS.len (currentHexString d st)) 0) as [Hz|Hnz].
  - destruct (Z.eqb_spec (JS.indexOf "55" hexString) (-1)) as [|Hi];
      [discriminate|].
    intros [= <-]. rewrite currentHexString_setBuffer, len_append.
    pose proof (indexOf_range "55" hexString).
    pose proof (len_nonneg (currentHexString d st)).
    assert (2 <= JS.len (JS.sliceFrom hexString (JS.indexOf "55" hexString))).
    { apply startsWith_55_len. rewrite sliceFrom_nonneg by lia.
      now apply indexOf_found. }
    lia.
  - intros [= <-]. rewrite currentHexString_setBuffer, len_append.
    pose proof (len_nonneg hexString).
    pose proof (len_nonneg (currentHexString d st)). lia.
Qed.

Lemma extractLoop_counters fuel hex d ts st e :
  extractLoop fromHexString fuel hex d ts st = Returns e ->
  skipped (exitState e) = skipped st /\
  processed (exitState e) = processed st.
Proof.
  apply (extractLoop_rule d ts
           (fun _ s => skipped s = skipped st /\ processed s = processed st)
           (fun e => skipped (exitState e) = skipped st /\
                     processed (exitState e) = processed st)); auto.
  intros h s p0 p [H1 H2] _ _ hex' st2.
  assert (skipped st2 = skipped st /\ processed st2 = processed st)
    by (unfold st2; destruct d; simpl; auto).
  split; auto.
Qed.

(** The only rows that change the counter of skipped rows are those that
    change nothing else. *)
Lemma onData_skipped_only row st st' :
  onData fromHexString row st = Returns st' ->
  skipped st' <> skipped st -> st' = skip st.
Proof.
  unfold onData, processBuffer, runExtractor, ingest.
  destruct (nth_error row 0) as [marker|]; [|now intros [= <-]].
  destruct (String.eqb marker "0"); [|now intros [= <-]].
  destruct (nth_error row 9) as [token|]; [|discriminate].
  destruct (negb _); [now intros [= <-]|].
  destruct (nth_error row 10) as [payload|]; [|discriminate].
  destruct (Z.eqb_spec (JS.len (JS.removeWhiteSpace payload)) 0) as [|Hne];
    [now intros [= <-]|].
  set (d := if JS.includes "IN" token then RX else TX).
  destruct (appendChunk d (JS.removeWhiteSpace payload) st) as [st1|] eqn:Ha;
    [|now intros [= <-]].
  assert (Hlen : JS.len (currentHexString d st1) <> 0).
  { eapply appendChunk_nonempty; eauto. intros E. now rewrite E in Hne. }
  destruct (Z.eqb_spec (JS.len (currentHexString d st1)) 0); [contradiction|].
  destruct (extractLoop _ _ _ _ _ _) as [e| |] eqn:He; try discriminate.
  intros [= <-] Hsk. exfalso. apply Hsk.
  apply extractLoop_counters in He as [He _]. simpl. rewrite He.
  revert Ha. unfold appendChunk.
  destruct (JS.len (currentHexString d st) =? 0);
    [destruct (JS.indexOf "55" (JS.removeWhiteSpace payload) =? -1);
     [discriminate|]|];
    intros [= <-]; now destruct d.
Qed.

(** C10.  A row that is skipped for one of the four reasons (its marker
    is not the payload marker, its direction token holds neither [IN] nor
    [OUT], its payload is empty once the white space is removed, or no
    [55] is found while the buffer of its direction is empty) leaves the
    two buffers, the results and the count of processed rows as they
    were; the count of skipped rows goes up by one. *)
Theorem C10_skip_changes_nothing (row : list string) (st : State) :
  skippedRecord st row ->
  exists st',
    onData fromHexString row st = Returns st' /\
    results st' = results st /\
    rxCurrentHexString st' = rxCurrentHexString st /\
    txCurrentHexString st' = txCurrentHexString st /\
    processed st' = processed st /\
    skipped st' = skipped st + 1.
Proof.
  intros Hskip. exists (skip st). split; [|now repeat split].
  unfold onData, ingest.
  destruct Hskip as [Hm | token Hm Ht Hin Hout
                     | token payload Hm Ht Hdir Hp Hempty
                     | token payload Hm Ht Hdir Hp Hne Hbuf Hidx].
  - destruct (nth_error row 0) as [marker|]; [|reflexivity].
    destruct (String.eqb_spec marker "0"); [congruence | reflexivity].
  - rewrite Hm, Ht, Hin, Hout. reflexivity.
  - rewrite Hm, Ht, Hdir, Hp, Hempty. reflexivity.
  - rewrite Hm, Ht, Hdir, Hp. simpl.
    destruct (Z.eqb_spec (JS.len (JS.removeWhiteSpace payload)) 0) as [|_];
      [reflexivity|].
    unfold appendChunk. rewrite Hbuf, Hidx. reflexivity.
Qed.

(** *** Runs over well-framed text *)

Section FramedRuns.

Variable d : Direction.

Lemma joined_app l1 l2 : joined (l1 ++ l2)%list = joined l1 ++ joined l2.
Proof.
  induction l1 as [|x l1 IH]; simpl; [reflexivity|].
  now rewrite IH, append_assoc.
Qed.

Lemma evenLength_nonempty s :
  evenLength s = true -> s <> "" -> 2 <= JS.len s.
Proof.
  unfold evenLength, JS.len. intros H Hne.
  destruct s as [|a [|b s]]; [congruence | discriminate | simpl; lia].
Qed.

Lemma evenLength_append_inv a b :
  evenLength (a ++ b) = true -> evenLength a = true -> evenLength b = true.
Proof.
  unfold evenLength. rewrite len_append, Z.even_add. intros H Ha.
  rewrite Ha in H. now destruct (Z.even (JS.len b)).
Qed.

Lemma framed_even f p : Framed fromHexString f p -> evenLength f = true.
Proof.
  intros F. unfold evenLength. rewrite (framed_length _ _ _ F).
  rewrite Z.even_mul. apply orb_true_r.
Qed.

Lemma framed_take f p r :
  Framed fromHexString f p ->
  JS.slice (f ++ r) 0 (p_length p * 2) = f.
Proof.
  intros F. pose proof (len_nonneg f).
  rewrite slice_prefix, <- (framed_length _ _ _ F) by
    (rewrite <- (framed_length _ _ _ F); lia).
  unfold JS.len. rewrite Nat2Z.id. apply take_append.
Qed.

Lemma framed_rest f p r :
  Framed fromHexString f p ->
  JS.sliceFrom (f ++ r) (p_length p * 2) = r.
Proof.
  intros F. pose proof (len_nonneg f).
  rewrite sliceFrom_nonneg, <- (framed_length _ _ _ F) by
    (rewrite <- (framed_length _ _ _ F); lia).
  unfold JS.len. rewrite Nat2Z.id. apply drop_append.
Qed.

(** The extractor accepts the packet of a frame that heads its text,
    whether directly or after the second decode. *)
Lemma framed_accept f p r :
  Framed fromHexString f p ->
  exists p0, fromHexString (f ++ r) = Some p0 /\
             redecode fromHexString (f ++ r) p0 = Some p.
Proof.
  intros F. destruct (string_dec r "") as [->|Hr].
  - rewrite append_nil_r. exists p. split; [apply F|].
    unfold redecode. now rewrite (framed_valid _ _ _ F).
  - destruct (framed_overread _ _ _ F r Hr) as (p0 & Hdec & Hlen & Hsame).
    exists p0. split; [exact Hdec|]. unfold redecode.
    destruct (isValid p0) eqn:Hv; simpl.
    + now rewrite (Hsame eq_refl).
    + pose proof (startsWith_55_len _ (framed_sync _ _ _ F)).
      pose proof (framed_length _ _ _ F). pose proof (len_nonneg r).
      rewrite len_append.
      destruct (Z.ltb_spec (p_length p0) ((JS.len f + JS.len r) * 2)); [|lia].
      rewrite Hlen, (framed_take f p r F). apply F.
Qed.

Lemma extractLoop_fail fuel h ts st :
  fromHexString h = None ->
  extractLoop fromHexString (S fuel) h d ts st
  = Returns (mkExit st h DecodeFailed).
Proof. intros H. simpl. now rewrite H. Qed.

Lemma extractLoop_pass fuel h ts st p0 p :
  fromHexString h = Some p0 ->
  redecode fromHexString h p0 = Some p ->
  isValid p = true ->
  JS.len (JS.sliceFrom h (p_length p * 2)) < JS.len h ->
  extractLoop fromHexString (S fuel) h d ts st
  = extractLoop fromHexString fuel (JS.sliceFrom h (p_length p * 2)) d ts
      (setBuffer d
         (if JS.startsWith "55" (JS.sliceFrom h (p_length p * 2))
          then JS.sliceFrom h (p_length p * 2) else "")
         (pushResult (mkParsedData ts d p) st)).
Proof.
  intros H0 H1 Hv Hlt. simpl. rewrite H0, H1, Hv.
  destruct (Z.ltb_spec (JS.len (JS.sliceFrom h (p_length p * 2))) (JS.len h));
    [reflexivity | lia].
Qed.

(** A remainder that is the beginning of a frame, in whole bytes, passes
    the test of line 153 unless it is empty. *)
Lemma checked_pending r todo :
  allFramed fromHexString todo -> pending r todo -> evenLength r = true ->
  (if JS.startsWith "55" r then r else "") = r.
Proof.
  intros Hall Hp Hev. destruct (JS.startsWith "55" r) eqn:E; [reflexivity|].
  destruct (string_dec r "") as [->|Hr]; [reflexivity|].
  destruct todo as [|[f p] rest]; [now rewrite Hp|].
  destruct Hp as (t & _ & Hf). inversion Hall as [|? ? F _]; subst.
  pose proof (framed_sync _ _ _ F) as Hs. simpl in Hs.
  apply startsWith_55_prefix in Hs; [congruence|].
  now apply evenLength_nonempty.
Qed.

(** One call of the extractor on the beginning [h] of a run of frames:
    it returns, having pushed the packets of the frames that are whole in
    [h], and leaves the started frame in the buffer. *)
Lemma extract_frames ts : forall todo fuel h st,
  allFramed fromHexString todo ->
  fromHexString "" = None ->
  evenLength h = true ->
  (exists tail, h ++ tail = joined (map fst todo)) ->
  (String.length h < fuel)%nat ->
  exists e done todo',
    todo = (done ++ todo')%list /\
    extractLoop fromHexString fuel h d ts st = Returns e /\
    map packet (results (exitState e))
    = (map packet (results st) ++ map snd done)%list /\
    h = joined (map fst done) ++ exitHex e /\
    pending (exitHex e) todo' /\
    evenLength (exitHex e) = true /\
    currentHexString d (exitState e)
    = match done with
      | [] => currentHexString d st
      | _ :: _ => exitHex e
      end.
Proof.
  induction todo as [|[f p] rest IH]; intros fuel h st Hall H0 Hev [tail Ht] Hfuel.
  - simpl in Ht. apply append_eq_nil in Ht as [-> ->].
    destruct fuel as [|fuel]; [lia|].
    exists (mkExit st "" DecodeFailed), [], [].
    rewrite (extractLoop_fail fuel "" ts st H0). simpl.
    rewrite app_nil_r. repeat split; auto.
  - inversion Hall as [|? ? F Hrest]; subst. simpl in F.
    change (joined (map fst ((f, p) :: rest)))
      with (f ++ joined (map fst rest)) in Ht.
    destruct (Z.lt_ge_cases (JS.len h) (JS.len f)) as [Hlt|Hge].
    + destruct (append_split h tail f _ Ht) as (t & Hf & _); [lia|].
      assert (Hpp : properPrefix h f).
      { exists t. split; [|exact Hf]. intros ->.
        rewrite Hf, append_nil_r in Hlt. lia. }
      destruct fuel as [|fuel]; [lia|].
      exists (mkExit st h DecodeFailed), [], ((f, p) :: rest).
      rewrite (extractLoop_fail fuel h ts st (framed_partial _ _ _ F h Hpp)).
      simpl. rewrite app_nil_r. repeat split; auto.
    + symmetry in Ht.
      destruct (append_split f _ h tail Ht) as (r & Hh & Hr); [lia|]. subst h.
      destruct (framed_accept f p r F) as (p0 & Hdec & Hre).
      pose proof (startsWith_55_len _ (framed_sync _ _ _ F)) as Hf2.
      assert (Hevr : evenLength r = true)
        by (eapply evenLength_append_inv; eauto using framed_even).
      destruct fuel as [|fuel]; [lia|].
      rewrite length_append in Hfuel. unfold JS.len in Hf2.
      set (st2 := setBuffer d (if JS.startsWith "55" r then r else "")
                    (pushResult (mkParsedData ts d p) st)).
      destruct (IH fuel r st2 Hrest H0 Hevr (ex_intro _ tail (eq_sym Hr)))
        as (e & done & todo' & Htodo & Hrun & Hres & Hrem & Hpend & Heve & Hcur);
        [lia|].
      exists e, ((f, p) :: done), todo'. repeat split; auto.
      * simpl. now rewrite Htodo.
      * rewrite (extractLoop_pass fuel (f ++ r) ts st p0 p Hdec Hre
                   (framed_valid _ _ _ F));
          rewrite (framed_rest f p r F); [exact Hrun|].
        rewrite len_append. unfold JS.len. lia.
      * rewrite Hres. unfold st2. rewrite results_setBuffer. simpl.
        rewrite map_app. simpl. now rewrite <- app_assoc.
      * simpl. now rewrite append_assoc, <- Hrem.
      * rewrite Hcur. destruct done as [|x done]; [|reflexivity].
        simpl in Hrem. subst r. unfold st2.
        rewrite currentHexString_setBuffer.
        simpl in Htodo. subst rest.
        now apply (checked_pending (exitHex e) todo').
Qed.

Lemma ingest_payload row c st :
  payloadFor d row = Some c ->
  ingest row st
  = if JS.len c =? 0 then Skipped (skip st)
    else match appendChunk d c st with
         | None => Skipped (skip st)
         | Some st1 =>
             if JS.len (currentHexString d st1) =? 0
             then Skipped (skip st1)
             else Handed d (nth 3 row EmptyString) st1
         end.
Proof.
  unfold payloadFor, ingest.
  destruct (nth_error row 0) as [marker|]; [|discriminate].
  destruct (nth_error row 9) as [token|]; [|discriminate].
  destruct (nth_error row 10) as [payload|]; [|discriminate].
  destruct (String.eqb marker "0"); [|discriminate].
  destruct (JS.includes "IN" token || JS.includes "OUT" token);
    [|discriminate].
  simpl. destruct (JS.includes "IN" token), d; simpl; try discriminate;
    now intros [= <-].
Qed.

(** A chunk that continues a run of frames goes into the buffer whole. *)
Lemma appendChunk_frames c st todo tail :
  allFramed fromHexString todo ->
  c <> "" -> evenLength c = true ->
  (currentHexString d st ++ c) ++ tail = joined (map fst todo) ->
  appendChunk d c st = Some (setBuffer d (currentHexString d st ++ c) st).
Proof.
  intros Hall Hc Hev Ht. unfold appendChunk.
  destruct (Z.eqb_spec (JS.len (currentHexString d st)) 0) as [Hz|]; [|reflexivity].
  rewrite (len_zero _ Hz) in *. cbn [String.append] in *.
  assert (Hs : JS.startsWith "55" c = true).
  { destruct todo as [|[f p] rest].
    - simpl in Ht. apply append_eq_nil in Ht as [-> _]. congruence.
    - inversion Hall as [|? ? F _]; subst. simpl in F.
      pose proof (framed_sync _ _ _ F) as Hf.
      change (joined (map fst ((f, p) :: rest)))
        with (f ++ joined (map fst rest)) in Ht.
      pose proof (evenLength_nonempty c Hev Hc) as Hc2.
      destruct (Z.le_gt_cases (JS.len c) (JS.len f)).
      + destruct (append_split c tail f _ Ht) as (t & Hft & _); [lia|].
        rewrite Hft in Hf. now apply startsWith_55_prefix in Hf.
      + symmetry in Ht.
        destruct (append_split f _ c tail Ht) as (t & -> & _); [lia|].
        now apply startsWith_55_append. }
  rewrite (indexOf_here _ _ Hs). simpl.
  rewrite sliceFrom_nonneg by lia. reflexivity.
Qed.

Lemma joined_even frames :
  allFramed fromHexString frames ->
  evenLength (joined (map fst frames)) = true.
Proof.
  induction 1 as [|[f p] rest F _ IH]; simpl; [reflexivity|].
  apply evenLength_append; eauto using framed_even.
Qed.

Lemma pending_start frames :
  allFramed fromHexString frames -> pending "" frames.
Proof.
  intros Hall. destruct frames as [|[f p] rest]; [reflexivity|].
  inversion Hall as [|? ? F _]; subst. exists f. split; [|reflexivity].
  intros ->. discriminate (framed_sync _ _ _ F).
Qed.

(** A run over rows whose payloads, end to end, continue the frames
    [todo]: every row is taken in, and the packets are those of the
    frames, in order. *)
Lemma feed_frames : forall rows chunks st todo,
  allFramed fromHexString todo ->
  Forall2 (fun row c => payloadFor d row = Some c) rows chunks ->
  Forall (fun c => evenLength c = true) chunks ->
  evenLength (currentHexString d st) = true ->
  pending (currentHexString d st) todo ->
  currentHexString d st ++ joined chunks = joined (map fst todo) ->
  exists st',
    feed fromHexString rows st = Returns st' /\
    map packet (results st')
    = (map packet (results st) ++ map snd todo)%list.
Proof.
  induction rows as [|row rows IH];
    intros chunks st todo Hall H2 Hev Hcur Hpend Hjoin;
    inversion H2 as [|? c ? chunks' Hrow Hrows]; subst.
  - exists st. split; [reflexivity|].
    simpl in Hjoin. rewrite append_nil_r in Hjoin.
    destruct todo as [|[f p] rest]; [now rewrite app_nil_r|].
    destruct Hpend as (t & Ht & Hf). exfalso. apply Ht.
    apply len_zero.
    assert (E : JS.len (currentHexString d st)
                = JS.len (joined (map fst ((f, p) :: rest))))
      by now rewrite <- Hjoin.
    simpl in E. rewrite Hf, !len_append in E.
    pose proof (len_nonneg t). pose proof (len_nonneg (joined (map fst rest))).
    lia.
  - inversion Hev as [|? ? Hc Hcs]; subst.
    simpl feed. unfold onData. rewrite (ingest_payload row c st Hrow).
    change (joined (c :: chunks')) with (c ++ joined chunks') in Hjoin.
    destruct (Z.eqb_spec (JS.len c) 0) as [Hz|Hnz].
    + apply len_zero in Hz. subst c. cbn [String.append] in Hjoin.
      apply (IH chunks' (skip st) todo); auto;
        rewrite currentHexString_skip; auto.
    + assert (Hne : c <> "") by (intros ->; now apply Hnz).
      rewrite <- append_assoc in Hjoin.
      rewrite (appendChunk_frames c st todo _ Hall Hne Hc Hjoin).
      rewrite currentHexString_setBuffer.
      set (h := currentHexString d st ++ c) in *.
      set (st1 := setBuffer d h st).
      assert (Hh : JS.len h <> 0).
      { unfold h. rewrite len_append.
        pose proof (len_nonneg (currentHexString d st)).
        pose proof (len_nonneg c). lia. }
      destruct (Z.eqb_spec (JS.len h) 0); [contradiction|].
      assert (H0 : fromHexString "" = None).
      { destruct todo as [|[f p] rest].
        - simpl in Hjoin. apply append_eq_nil in Hjoin as [E _].
          rewrite E in Hh. now elim Hh.
        - inversion Hall as [|? ? F _]; subst.
          apply (framed_partial _ _ _ F). exists f. split; [|reflexivity].
          intros ->. discriminate (framed_sync _ _ _ F). }
      destruct (extract_frames (nth 3 row EmptyString) todo
                  (S (String.length h)) h st1 Hall H0
                  (evenLength_append _ _ Hcur Hc)
                  (ex_intro _ _ Hjoin) (Nat.lt_succ_diag_r _))
        as (e & done & todo' & Htodo & Hrun & Hres & Hrem & Hp & Heve & Hbuf).
      unfold processBuffer, runExtractor.
      replace (currentHexString d st1) with h
        by (unfold st1; now rewrite currentHexString_setBuffer).
      rewrite Hrun.
      assert (Hcur' : currentHexString d (countProcessed (exitState e))
                      = exitHex e).
      { rewrite currentHexString_countProcessed, Hbuf.
        destruct done; [|reflexivity].
        unfold st1. now rewrite currentHexString_setBuffer. }
      subst todo. apply Forall_app in Hall as [_ Hall'].
      destruct (IH chunks' (countProcessed (exitState e)) todo')
        as (st' & Hfeed & Hpk); auto; try (rewrite Hcur'; auto).
      * rewrite map_app, joined_app, Hrem, append_assoc in Hjoin.
        now apply append_inv_head in Hjoin.
      * exists st'. split; [exact Hfeed|]. rewrite Hpk. simpl.
        rewrite Hres. unfold st1. rewrite results_setBuffer.
        now rewrite map_app, app_assoc.
Qed.

End FramedRuns.

(** C8, amended.  Let the buffer be a sequence of frames the decoder
    handles as [Framed] says: it opens each with [55], decodes a whole
    frame to a valid packet of the declared length (at once, or after
    the second decode of lines 141-143) and throws on a frame that is not
    complete.  Then the rows that deliver this buffer in pieces of whole
    bytes, all in one direction, give the same sequence of decoded
    packets as the one row that delivers it whole: the packets of the
    frames, in order. *)
Theorem C8_reassembly_amended (d : Direction)
    (frames : list (string * Packet))
    (whole : list string) (rows : list (list string)) (chunks : list string) :
  allFramed fromHexString frames ->
  payloadFor d whole = Some (joined (map fst frames)) ->
  Forall2 (fun row c => payloadFor d row = Some c) rows chunks ->
  Forall (fun c => evenLength c = true) chunks ->
  joined chunks = joined (map fst frames) ->
  exists one many,
    parseCSV fromHexString [whole] = Returns one /\
    parseCSV fromHexString rows = Returns many /\
    map packet one = map snd frames /\
    map packet many = map packet one.
Proof.
  intros Hall Hwhole Hrows Hev Hjoin.
  assert (Hstart : currentHexString d initial = "") by now destruct d.
  destruct (feed_frames d [whole] [joined (map fst frames)] initial frames)
    as (st1 & Hf1 & Hp1); auto.
  { repeat constructor. now apply joined_even. }
  { now rewrite Hstart. }
  { rewrite Hstart. now apply pending_start. }
  { rewrite Hstart. simpl. now rewrite append_nil_r. }
  destruct (feed_frames d rows chunks initial frames)
    as (stN & HfN & HpN); auto.
  { now rewrite Hstart. }
  { rewrite Hstart. now apply pending_start. }
  { now rewrite Hstart. }
  exists (results st1), (results stN). unfold parseCSV.
  rewrite Hf1, HfN. repeat split; auto. now rewrite Hp1, HpN.
Qed.


(** *** The extractor against the design, packet by packet *)

Lemma accepted_nonneg hex p0 p :
  lengthsAreCounts fromHexString ->
  fromHexString hex = Some p0 ->
  acceptedBySpec fromHexString hex p0 = Some p -> 0 <= p_length p.
Proof.
  intros Hlen Hdec. unfold acceptedBySpec.
  destruct (negb (isValid p0) && (p_length p0 * 2 <? JS.len hex)).
  - apply Hlen.
  - intros [= <-]. eapply Hlen; eauto.
Qed.

Lemma taken_snoc hex ps h :
  taken fromHexString hex ps h ->
  forall p0 p,
    fromHexString h = Some p0 ->
    acceptedBySpec fromHexString h p0 = Some p ->
    isValid p = true ->
    taken fromHexString hex (ps ++ [p])%list
      (JS.drop (Z.to_nat (p_length p * 2)) h).
Proof.
  induction 1 as [hex|hex q0 q ps rest Hd Ha Hv Ht IH]; intros p0 p H1 H2 H3.
  - simpl. eapply taken_next; eauto. apply taken_none.
  - simpl. eapply taken_next; eauto.
Qed.


Lemma totalLength_app a b :
  totalLength (a ++ b)%list = totalLength a + totalLength b.
Proof.
  unfold totalLength. induction a as [|x a IH]; [reflexivity|].
  cbn [app fold_right]. rewrite IH. lia.
Qed.

Lemma totalLength_stamped_cons ts d p ps :
  totalLength (stamped ts d (p :: ps))
  = p_length p + totalLength (stamped ts d ps).
Proof. reflexivity. Qed.

(** What is left after the packets taken is the text less their bytes. *)
Lemma taken_consumed ts d hex ps rest :
  lengthsAreCounts fromHexString ->
  taken fromHexString hex ps rest ->
  0 <= totalLength (stamped ts d ps) /\
  rest = JS.drop (Z.to_nat (2 * totalLength (stamped ts d ps))) hex.
Proof.
  intros Hlen. induction 1 as [hex|hex p0 p ps rest Hd Ha Hv Ht [IH1 IH2]].
  - split; [reflexivity|]. reflexivity.
  - pose proof (accepted_nonneg hex p0 p Hlen Hd Ha) as Hp.
    rewrite totalLength_stamped_cons. split; [lia|].
    rewrite IH2, drop_drop. f_equal. lia.
Qed.

Lemma callEnds_consumed ts d hex ps rest why :
  lengthsAreCounts fromHexString ->
  callEnds fromHexString hex ps rest why ->
  rest = withoutConsumed hex (stamped ts d ps).
Proof.
  intros Hlen. unfold withoutConsumed.
  destruct 1 as [ps rest Ht Hf|ps h p0 bad Ht Hd Ha Hv].
  - destruct (taken_consumed ts d hex ps rest Hlen Ht) as [H0 ->].
    now rewrite sliceFrom_nonneg by lia.
  - destruct (taken_consumed ts d hex ps h Hlen Ht) as [H0 ->].
    pose proof (accepted_nonneg _ p0 bad Hlen Hd Ha) as Hb.
    unfold stamped in *. rewrite map_app, totalLength_app.
    change (totalLength (map (mkParsedData ts d) [bad])) with (p_length bad + 0).
    rewrite sliceFrom_nonneg by lia. rewrite drop_drop. f_equal. lia.
Qed.

(** One call of the extractor, as the design tells it: the packets
    pushed are the packets taken off the text, the text the call stops at
    is what they leave, and the buffer is written once a packet is
    pushed. *)
Lemma extractLoop_exact fuel hex d ts st e :
  lengthsAreCounts fromHexString ->
  extractLoop fromHexString fuel hex d ts st = Returns e ->
  exists ps,
    callEnds fromHexString hex ps (exitHex e) (exitWhy e) /\
    results (exitState e) = (results st ++ stamped ts d ps)%list /\
    currentHexString d (exitState e)
    = match ps with
      | [] => currentHexString d st
      | _ :: _ => keptIfSynced (exitHex e)
      end.
Proof.
  intros Hlen.
  apply (extractLoop_rule d ts
    (fun h s => exists ps,
       taken fromHexString hex ps h /\
       results s = (results st ++ stamped ts d ps)%list /\
       currentHexString d s
       = match ps with
         | [] => currentHexString d st
         | _ :: _ => keptIfSynced h
         end)
    (fun e => exists ps,
       callEnds fromHexString hex ps (exitHex e) (exitWhy e) /\
       results (exitState e) = (results st ++ stamped ts d ps)%list /\
       currentHexString d (exitState e)
       = match ps with
         | [] => currentHexString d st
         | _ :: _ => keptIfSynced (exitHex e)
         end)).
  - intros h s (ps & Ht & Hr & Hc) Hdec. exists ps. simpl.
    split; [now apply ends_failed | auto].
  - intros h s p0 p (ps & Ht & Hr & Hc) Hdec Hre hex' st2.
    assert (Hacc : acceptedBySpec fromHexString h p0 = Some p)
      by (rewrite <- (redecode_acceptedBySpec h p0 Hdec (Hlen _ _ Hdec));
          exact Hre).
    pose proof (accepted_nonneg h p0 p Hlen Hdec Hacc) as Hp.
    assert (Hh : hex' = JS.drop (Z.to_nat (p_length p * 2)) h)
      by (unfold hex'; apply sliceFrom_nonneg; lia).
    assert (Hres2 : results st2
                    = (results st ++ stamped ts d (ps ++ [p]))%list).
    { unfold st2. rewrite results_setBuffer. simpl. rewrite Hr.
      unfold stamped. now rewrite map_app, <- app_assoc. }
    assert (Hcur2 : currentHexString d st2 = keptIfSynced hex')
      by (unfold st2; apply currentHexString_setBuffer).
    split.
    + intros Hv. exists (ps ++ [p])%list. simpl.
      split; [rewrite Hh; now apply ends_invalid with p0|].
      split; [exact Hres2|]. now destruct ps.
    + intros Hv _. exists (ps ++ [p])%list.
      split; [rewrite Hh; now apply taken_snoc with p0|].
      split; [exact Hres2|]. now destruct ps.
  - exists []. unfold stamped. simpl. rewrite app_nil_r.
    split; [apply taken_none | auto].
Qed.

(** C5.  In every pass of the extractor in which the decoder succeeds,
    the packet accepted is the one the design describes: the re-decode of
    the first [length] bytes when the decoded packet is invalid and its
    length is smaller than the bytes in the buffer, the decoded packet
    itself in every other case.  That packet is pushed to the results, the
    buffer moves past its [length] bytes, and the loop goes on if it is
    valid and returns if not; a second decode that throws leaves the
    call.  So the first packet a call adds to the results is the accepted
    packet of the first decode.  (The lengths declared are counts of
    bytes.) *)
Theorem C5_extractor_accepts
    (hexString : string) (d : Direction) (ts : string) (st : State)
    (fuel : nat) (packet0 : Packet) :
  lengthsAreCounts fromHexString ->
  fromHexString hexString = Some packet0 ->
  extractLoop fromHexString (S fuel) hexString d ts st
  = match acceptedBySpec fromHexString hexString packet0 with
    | None => Throws
    | Some packet =>
        let rest := JS.drop (Z.to_nat (p_length packet * 2)) hexString in
        let st' := setBuffer d (keptIfSynced rest)
                     (pushResult (mkParsedData ts d packet) st) in
        if isValid packet
        then if JS.len rest <? JS.len hexString
             then extractLoop fromHexString fuel rest d ts st'
             else Diverges
        else Returns (mkExit st' rest InvalidPacket)
    end
  /\ (forall e,
        runExtractor fromHexString hexString d ts st = Returns e ->
        exists packet more,
          acceptedBySpec fromHexString hexString packet0 = Some packet /\
          results (exitState e)
          = (results st ++ mkParsedData ts d packet :: more)%list).
Proof.
  intros Hlen Hdec. split.
  - simpl. rewrite Hdec.
    rewrite (redecode_acceptedBySpec hexString packet0 Hdec (Hlen _ _ Hdec)).
    destruct (acceptedBySpec fromHexString hexString packet0) as [p|] eqn:Ha;
      [|reflexivity].
    pose proof (accepted_nonneg hexString packet0 p Hlen Hdec Ha) as Hp.
    rewrite sliceFrom_nonneg by lia. reflexivity.
  - intros e Hrun. unfold runExtractor in Hrun.
    apply extractLoop_exact in Hrun as (ps & Hends & Hres & _); [|exact Hlen].
    destruct Hends as [ps rest Ht Hf|ps h p0 bad Ht Hd Ha Hv].
    + destruct Ht as [hex|hex q0 q ps rest Hd Ha Hv Ht]; [congruence|].
      exists q, (stamped ts d ps). split; [congruence | exact Hres].
    + destruct Ht as [hex|hex q0 q ps rest Hd' Ha' Hv' Ht].
      * exists bad, []. split; [congruence | exact Hres].
      * exists q, (stamped ts d (ps ++ [bad])). split; [congruence | exact Hres].
Qed.


(** *** The handler, row by row *)

Lemma appendChunk_appendedText d c st :
  appendChunk d c st
  = match appendedText (currentHexString d st) c with
    | None => None
    | Some text => Some (setBuffer d (currentHexString d st ++ text) st)
    end.
Proof.
  unfold appendChunk, appendedText.
  destruct (JS.len (currentHexString d st) =? 0); [|reflexivity].
  destruct (Z.eqb_spec (JS.indexOf "55" c) (-1)); [reflexivity|].
  pose proof (indexOf_range "55" c).
  now rewrite sliceFrom_nonneg by lia.
Qed.

(** What the handler does with a row before the extractor runs. *)
Lemma ingest_chunkOf row st :
  match chunkOf row with
  | Some (d, c) =>
      ingest row st
      = match appendedText (currentHexString d st) c with
        | None => Skipped (skip st)
        | Some text =>
            Handed d (nth 3 row EmptyString)
              (setBuffer d (currentHexString d st ++ text) st)
        end
  | None => ingest row st = Skipped (skip st) \/ ingest row st = Failed
  end.
Proof.
  unfold chunkOf, ingest.
  destruct (nth_error row 0) as [marker|]; [|now left].
  destruct (nth_error row 9) as [token|];
    [|destruct (String.eqb marker "0"); [now right | now left]].
  destruct (nth_error row 10) as [payload|].
  - destruct (String.eqb marker "0"); [|now left].
    destruct (JS.includes "IN" token || JS.includes "OUT" token);
      [|now left].
    cbn [andb negb].
    destruct (Z.eqb_spec (JS.len (JS.removeWhiteSpace payload)) 0)
      as [|Hne]; [now left|].
    cbn [negb]. fold (tokenDirection token).
    pose proof (appendChunk_nonempty (tokenDirection token)
                  (JS.removeWhiteSpace payload) st) as Hnon.
    rewrite appendChunk_appendedText in *.
    destruct (appendedText _ _) as [text|]; [|reflexivity].
    specialize (Hnon _ (fun E => Hne (f_equal JS.len E)) eq_refl).
    destruct (Z.eqb_spec
                (JS.len (currentHexString (tokenDirection token)
                           (setBuffer (tokenDirection token)
                              (currentHexString (tokenDirection token) st
                               ++ text) st))) 0); [contradiction|].
    reflexivity.
  - destruct (String.eqb marker "0"); [|now left].
    destruct (JS.includes "IN" token || JS.includes "OUT" token);
      [now right | now left].
Qed.

Lemma onData_rowChange row st st' :
  lengthsAreCounts fromHexString ->
  onData fromHexString row st = Returns st' ->
  rowChange fromHexString row st st'.
Proof.
  intros Hlen. unfold onData. pose proof (ingest_chunkOf row st) as Hi.
  destruct (chunkOf row) as [[d c]|] eqn:Hc.
  - rewrite Hi. destruct (appendedText (currentHexString d st) c)
      as [text|] eqn:Ha.
    + unfold processBuffer, runExtractor.
      rewrite currentHexString_setBuffer.
      set (handed := currentHexString d st ++ text).
      set (st1 := setBuffer d handed st).
      destruct (extractLoop _ _ _ _ _ _) as [e| |] eqn:He; try discriminate.
      intros [= <-].
      pose proof (extractLoop_counters _ _ _ _ _ _ He) as [Hs Hp].
      pose proof (extractLoop_buffers _ _ _ _ _ _ He) as [Ho _].
      destruct (extractLoop_exact _ _ _ _ _ _ Hlen He)
        as (ps & Hends & Hres & Hbuf).
      pose proof (callEnds_consumed (nth 3 row EmptyString) d _ _ _ _
                    Hlen Hends) as Hcons.
      apply (Row_taken fromHexString row st _ d c text ps (exitHex e)
               (exitWhy e)); auto.
      * simpl. rewrite Hres. unfold st1. now rewrite results_setBuffer.
      * rewrite currentHexString_countProcessed, Hbuf.
        destruct ps; [|reflexivity].
        unfold st1. apply currentHexString_setBuffer.
      * intros d' Hd. rewrite currentHexString_countProcessed, Ho by auto.
        unfold st1. now apply currentHexString_setBuffer_other.
      * simpl. rewrite Hp. unfold st1. now destruct d.
      * simpl. rewrite Hs. unfold st1. now destruct d.
    + intros [= <-]. apply Row_skipped; [now rewrite Hc | reflexivity].
  - destruct Hi as [-> | ->]; [|discriminate].
    intros [= <-]. apply Row_skipped; [now rewrite Hc | reflexivity].
Qed.

(** C6, amended.  Both buffers start empty.  After any number of rows,
    a buffer that is not empty begins with [55], and so does every buffer
    handed to the extractor.  A row changes a buffer in one way only: its
    sanitized payload is appended to the buffer of its direction (from
    its first [55] on when that buffer is empty, and not at all when it
    is empty and the payload holds no [55]), and if the extractor then
    takes packets off the buffer, the buffer loses, at its front, the
    bytes of those packets and is kept if what follows begins with [55],
    emptied if not.  (The lengths declared are counts of bytes.) *)
Theorem C6_sync_invariant_amended (rows : list (list string)) :
  (forall d, currentHexString d initial = "") /\
  (forall st, feed fromHexString rows initial = Returns st -> synced st) /\
  Forall (fun b => JS.startsWith "55" b = true)
         (handedBuffers fromHexString rows initial) /\
  (lengthsAreCounts fromHexString ->
   forall row st st',
     onData fromHexString row st = Returns st' ->
     rowChange fromHexString row st st').
Proof.
  assert (H0 : synced initial) by (intros []; now left).
  repeat split.
  - now intros [].
  - intros st. now apply feed_synced.
  - now apply handedBuffers_synced.
  - intros Hlen row st st'. now apply onData_rowChange.
Qed.

Lemma onData_even row st st' :
  evenBuffers st -> appendedEven row st = true ->
  onData fromHexString row st = Returns st' -> evenBuffers st'.
Proof.
  intros Hst Hal. unfold onData, appendedEven in *.
  pose proof (ingest_chunkOf row st) as Hi.
  destruct (chunkOf row) as [[d c]|].
  - rewrite Hi. destruct (appendedText (currentHexString d st) c) as [text|].
    + unfold processBuffer, runExtractor.
      rewrite currentHexString_setBuffer.
      destruct (extractLoop _ _ _ _ _ _) as [e| |] eqn:He; try discriminate.
      intros [= <-] d'. rewrite currentHexString_countProcessed. revert d'.
      assert (Hh : evenLength (currentHexString d st ++ text) = true)
        by (apply evenLength_append; auto).
      refine (extractLoop_even _ _ _ _ _ _ Hh _ He).
      now apply evenBuffers_setBuffer.
    + intros [= <-]. now apply evenBuffers_skip.
  - destruct Hi as [-> | ->]; [|discriminate].
    intros [= <-]. now apply evenBuffers_skip.
Qed.

Lemma handedBuffers_even rows : forall st,
  evenBuffers st ->
  alignedRun fromHexString rows st ->
  Forall (fun b => evenLength b = true) (handedBuffers fromHexString rows st).
Proof.
  induction rows as [|row rows IH]; intros st Hst Hal; [constructor|].
  destruct Hal as [Ha Hnext]. cbn [handedBuffers].
  assert (Hgo : forall st', onData fromHexString row st = Returns st' ->
            Forall (fun b => evenLength b = true)
                   (handedBuffers fromHexString rows st')).
  { intros st' Hon. apply IH; [|now apply Hnext].
    exact (onData_even row st st' Hst Ha Hon). }
  pose proof (ingest_chunkOf row st) as Hi.
  assert (Hskip : ingest row st = Skipped (skip st) ->
            onData fromHexString row st = Returns (skip st))
    by (unfold onData; now intros ->).
  unfold appendedEven in Ha.
  destruct (chunkOf row) as [[d c]|].
  - destruct (appendedText (currentHexString d st) c) as [text|].
    + rewrite Hi. constructor.
      * rewrite currentHexString_setBuffer. apply evenLength_append; auto.
      * destruct (onData fromHexString row st) as [st'| |];
          [now apply Hgo | constructor | constructor].
    + rewrite Hi. apply Hgo, Hskip, Hi.
  - destruct Hi as [Hi | Hi]; rewrite Hi; [|constructor].
    apply Hgo, Hskip, Hi.
Qed.

(** C7, amended.  The search for [55] runs over characters, not bytes,
    and nothing in the reassembler looks at the parity of a length.  What
    holds is conditional on the texts that are appended, and on those
    only: when every text appended to a buffer in the course of the run
    has even length (the sanitized payload when the buffer holds
    something; the payload from its first [55] on when the buffer is
    empty, which for a payload of whole bytes means that this [55] is at
    an even offset), every buffer handed to the extractor has even
    length. *)
Theorem C7_even_buffers_amended (rows : list (list string)) :
  alignedRun fromHexString rows initial ->
  Forall (fun b => evenLength b = true)
         (handedBuffers fromHexString rows initial).
Proof.
  apply handedBuffers_even. now intros [].
Qed.

End ReassemblyClaims.

Lemma demo_lengthsAreCounts : ReassemblySpec.lengthsAreCounts Demo.decode.
Proof.
  intros s p. unfold Demo.decode.
  destruct (JS.startsWith "55" s); [|discriminate].
  destruct (Demo.hexByte (JS.drop 2 s)) as [n|]; [|discriminate].
  destruct (Z.ltb_spec n 2); [discriminate|].
  destruct (JS.len s <? 2 * n); [discriminate|].
  intros [= <-]. simpl. lia.
Qed.

Lemma C5_extractor_accepts_witness :
  Reassembly.extractLoop Demo.decode 7 "5502aa" RX "t" Reassembly.initial
  = Reassembly.Returns
      {| Reassembly.exitState :=
           {| Reassembly.results :=
                [mkParsedData "t" RX (mkPacket 2 0 2 0 true "5502")];
              Reassembly.rxCurrentHexString := "";
              Reassembly.txCurrentHexString := "";
              Reassembly.processed := 0;
              Reassembly.skipped := 0 |};
         Reassembly.exitHex := "aa";
         Reassembly.exitWhy := Reassembly.DecodeFailed |}.
Proof.
  exact (proj1 (C5_extractor_accepts Demo.decode "5502aa" RX "t"
                  Reassembly.initial 6 (mkPacket 2 0 2 0 false "5502")
                  demo_lengthsAreCounts eq_refl)).
Defined.

(** C6, as stated, fails in its last clause.  One row carries the frame
    [5502] followed by the byte [aa].  The extractor takes the frame (two
    bytes) and the decoder fails on [aa]; removing the bytes of the
    consumed packet would leave [aa] in the buffer, but the buffer is
    empty: the remainder does not begin with [55] and was dropped with
    it. *)
Lemma C6_counterexample :
  Reassembly.onData Demo.decode (Demo.row "t" "IN" "5502aa") Reassembly.initial
  = Reassembly.Returns
      {| Reassembly.results :=
           [mkParsedData "t" RX (mkPacket 2 0 2 0 true "5502")];
         Reassembly.rxCurrentHexString := "";
         Reassembly.txCurrentHexString := "";
         Reassembly.processed := 1;
         Reassembly.skipped := 0 |}
  /\ ReassemblySpec.withoutConsumed "5502aa"
       [mkParsedData "t" RX (mkPacket 2 0 2 0 true "5502")] = "aa"%string
  /\ ""%string <> "aa"%string.
Proof. repeat split. discriminate. Qed.

(** C7, as stated, fails: the payload [0550] is the two bytes [05 50];
    the first [55] in its text sits astride them, and the buffer handed
    to the extractor is [550], three characters. *)
Lemma C7_counterexample :
  Reassembly.handedBuffers Demo.decode
    [Demo.row "t" "IN" "0550"] Reassembly.initial = ["550"%string]
  /\ ReassemblySpec.evenLength "0550" = true
  /\ ReassemblySpec.evenLength "550" = false.
Proof. repeat split. Qed.

Lemma C7_even_buffers_amended_witness :
  Forall (fun b => ReassemblySpec.evenLength b = true)
    (Reassembly.handedBuffers Demo.decode
       [Demo.row "t1" "IN" "5504"; Demo.row "t2" "IN" "0550"]
       Reassembly.initial).
Proof.
  apply (C7_even_buffers_amended Demo.decode
           [Demo.row "t1" "IN" "5504"; Demo.row "t2" "IN" "0550"]).
  split; [reflexivity|]. intros st1 H1. vm_compute in H1.
  injection H1 as <-.
  split; [reflexivity|]. intros st2 H2. exact I.
Defined.

Lemma C6_sync_invariant_amended_witness :
  ReassemblySpec.rowChange Demo.decode (Demo.row "t" "IN" "00 5502 aa")
    Reassembly.initial
    {| Reassembly.results :=
         [mkParsedData "t" RX (mkPacket 2 0 2 0 true "5502")];
       Reassembly.rxCurrentHexString := "";
       Reassembly.txCurrentHexString := "";
       Reassembly.processed := 1;
       Reassembly.skipped := 0 |}.
Proof.
  apply (proj2 (proj2 (proj2 (C6_sync_invariant_amended Demo.decode [])))
           demo_lengthsAreCounts).
  reflexivity.
Defined.



Lemma C10_skip_changes_nothing_witness :
  exists st',
    Reassembly.onData Demo.decode (Demo.row "t" "IN" "01 02")
      (Reassembly.setBuffer TX "5504" Reassembly.initial)
    = Reassembly.Returns st' /\
    Reassembly.results st' = [] /\
    Reassembly.rxCurrentHexString st' = ""%string /\
    Reassembly.txCurrentHexString st' = "5504"%string /\
    Reassembly.processed st' = 0 /\
    Reassembly.skipped st' = 0 + 1.
Proof.
  apply (C10_skip_changes_nothing Demo.decode (Demo.row "t" "IN" "01 02")
           (Reassembly.setBuffer TX "5504" Reassembly.initial)).
  apply ReassemblySpec.Skip_nosync with (token := "IN"%string)
                                        (payload := "01 02"%string);
    try reflexivity.
  discriminate.
Defined.

(** C8, as stated, fails.  The buffer is the frame [5502], the byte
    [00] and the frame [550301].  Delivered whole, it yields the first
    packet only: the extractor goes on after a valid packet without
    looking for [55], and the decoder fails on [00550301].  Delivered as
    [5502] and [00550301], it yields both packets: the second row finds
    the buffer empty, so the search for [55] drops the [00]. *)
Lemma C8_counterexample :
  Reassembly.parseCSV Demo.decode [Demo.row "t" "IN" "5502 00 550301"]
  = Reassembly.Returns
      [mkParsedData "t" RX (mkPacket 2 0 2 0 true "5502")]
  /\ Reassembly.parseCSV Demo.decode
       [Demo.row "t1" "IN" "5502"; Demo.row "t2" "IN" "00 550301"]
     = Reassembly.Returns
         [mkParsedData "t1" RX (mkPacket 2 0 2 0 true "5502");
          mkParsedData "t2" RX (mkPacket 3 0 2 0 true "550301")]
  /\ (JS.removeWhiteSpace "5502" ++ JS.removeWhiteSpace "00 550301")%string
     = JS.removeWhiteSpace "5502 00 550301".
Proof. repeat split. Qed.

(** The stand-in decoder treats its frames as [Framed] asks. *)
Lemma demo_decode_sync s n :
  JS.startsWith "55" s = true ->
  Demo.hexByte (JS.drop 2 s) = Some n ->
  Demo.decode s
  = if (n <? 2) || (JS.len s <? 2 * n) then None
    else Some {| p_length := n; commandType := 0; ackType := 2;
                 sequenceID := 0; isValid := (JS.len s =? 2 * n);
                 toShortString := JS.take (Z.to_nat (2 * n)) s |}.
Proof. intros Hs Hn. unfold Demo.decode. now rewrite Hs, Hn. Qed.

Ltac short_of_frame s H :=
  repeat (destruct s as [|? s];
          [reflexivity | simpl in H; injection H as <- H]);
  destruct s; [simpl in H; congruence | discriminate H].

Lemma demo_framed_5502 :
  ReassemblySpec.Framed Demo.decode "5502" (mkPacket 2 0 2 0 true "5502").
Proof.
  constructor; try reflexivity.
  - intros rest Hrest.
    rewrite (demo_decode_sync ("5502" ++ rest) 2) by reflexivity.
    rewrite len_append. change (JS.len "5502") with 4.
    pose proof (len_nonneg rest).
    destruct (Z.ltb_spec (4 + JS.len rest) (2 * 2)); [lia|].
    change (2 <? 2) with false. cbn [orb].
    eexists. split; [reflexivity|]. split; [reflexivity|]. cbn [isValid].
    intros E. apply Z.eqb_eq in E. elim Hrest. apply len_zero. lia.
  - intros s (t & Ht & Hf). short_of_frame s Hf.
Qed.

Lemma demo_framed_550301 :
  ReassemblySpec.Framed Demo.decode "550301" (mkPacket 3 0 2 0 true "550301").
Proof.
  constructor; try reflexivity.
  - intros rest Hrest.
    rewrite (demo_decode_sync ("550301" ++ rest) 3) by reflexivity.
    rewrite len_append. change (JS.len "550301") with 6.
    pose proof (len_nonneg rest).
    destruct (Z.ltb_spec (6 + JS.len rest) (2 * 3)); [lia|].
    change (3 <? 2) with false. cbn [orb].
    eexists. split; [reflexivity|]. split; [reflexivity|]. cbn [isValid].
    intros E. apply Z.eqb_eq in E. elim Hrest. apply len_zero. lia.
  - intros s (t & Ht & Hf). short_of_frame s Hf.
Qed.

Lemma C8_reassembly_amended_witness :
  exists one many,
    Reassembly.parseCSV Demo.decode [Demo.row "t" "IN" "5502550301"]
    = Reassembly.Returns one /\
    Reassembly.parseCSV Demo.decode
      [Demo.row "t1" "IN" "55"; Demo.row "t2" "IN" "02 55 03";
       Demo.row "t3" "IN" "01"]
    = Reassembly.Returns many /\
    map packet one
    = [mkPacket 2 0 2 0 true "5502"; mkPacket 3 0 2 0 true "550301"] /\
    map packet many = map packet one.
Proof.
  apply (C8_reassembly_amended Demo.decode RX
           [("5502"%string, mkPacket 2 0 2 0 true "5502");
            ("550301"%string, mkPacket 3 0 2 0 true "550301")]
           (Demo.row "t" "IN" "5502550301")
           [Demo.row "t1" "IN" "55"; Demo.row "t2" "IN" "02 55 03";
            Demo.row "t3" "IN" "01"]
           ["55"; "025503"; "01"]%string).
  - unfold ReassemblySpec.allFramed.
    constructor; [exact demo_framed_5502|].
    constructor; [exact demo_framed_550301 | constructor].
  - reflexivity.
  - repeat constructor.
  - repeat constructor.
  - reflexivity.
Defined.

(* ================================================================== *)
(** * Part III: further properties of the code *)
(* ================================================================== *)

(** ** More on [pairPackets] *)

Section PairingMore.
Import Pairing PairingSpec MoreSpec.

Lemma present_app {A} (a b : JS.sparse A) :
  JS.present (a ++ b) = JS.present a ++ JS.present b.
Proof.
  induction a as [|[x|] a IH]; simpl; [reflexivity | now rewrite IH | exact IH].
Qed.

(** Deleting an element that is there takes it, and only it, out of the
    elements still present. *)
Lemma present_deleteNth_here {A} (arr : JS.sparse A) : forall n p,
  nth_error arr n = Some (Some p) ->
  exists l1 l2, JS.present arr = l1 ++ p :: l2 /\
                JS.present (JS.deleteNth n arr) = l1 ++ l2.
Proof.
  induction arr as [|x arr IH]; intros [|n] p H; simpl in H; try discriminate.
  - injection H as ->. now exists [], (JS.present arr).
  - destruct (IH n p H) as (l1 & l2 & E1 & E2). destruct x as [y|]; simpl.
    + exists (y :: l1), l2. now rewrite E1, E2.
    + now exists l1, l2.
Qed.

Lemma leftover_present_eq arr :
  leftover arr = map toPacketData (JS.present arr).
Proof. now destruct arr. Qed.

(** What the callback does when some reply qualifies: the request is
    paired with the first qualifying reply, and the last qualifying
    reply leaves the array. *)
Lemma pairRequest_match rq k st rs rest :
  filter (matchesRequest rq) (JS.present (ackPackets st)) = rs :: rest ->
  exists l1 l2,
    JS.present (ackPackets st) = l1 ++ last (rs :: rest) rs :: l2 /\
    JS.present (ackPackets (pairRequest rq k st)) = l1 ++ l2 /\
    requestPackets (pairRequest rq k st)
    = JS.deleteAt (Z.of_nat k) (requestPackets st) /\
    paired (pairRequest rq k st)
    = paired st ++ [ {| request := toPacketData rq;
                        response := toPacketData rs |} ] /\
    unpaired (pairRequest rq k st) = unpaired st.
Proof.
  intros Hf. unfold pairRequest.
  pose proof (filterMatching_kept rq (ackPackets st) 0 (-1)) as Hk.
  pose proof (filterMatching_index rq (ackPackets st) 0 (-1)) as Hi.
  destruct (filterMatching rq (ackPackets st) 0 (-1)) as [kept m].
  simpl in Hk, Hi. rewrite Hf in Hk. subst kept. destruct Hi as [Hm Hnth].
  rewrite Z.sub_0_r in Hnth.
  destruct (present_deleteNth_here _ _ _ Hnth) as (l1 & l2 & E1 & E2).
  exists l1, l2. simpl. unfold JS.deleteAt at 1.
  destruct (Z.ltb_spec m 0); [lia|]. auto.
Qed.

Lemma pairRequest_nomatch rq k st :
  filter (matchesRequest rq) (JS.present (ackPackets st)) = [] ->
  pairRequest rq k st
  = {| ackPackets := ackPackets st; requestPackets := requestPackets st;
       paired := paired st;
       unpaired := unpaired st ++ [toPacketData rq] |}.
Proof.
  intros Hf. destruct (pairRequest_cases rq k st)
    as [[_ E]|(rs & rest & m & Hf' & _)]; [exact E | congruence].
Qed.

(** Every pair takes one reply out of the array. *)
Lemma foldRequests_counts rs : forall k st,
  (List.length (paired (foldRequests rs k st))
   + List.length (JS.present (ackPackets (foldRequests rs k st)))
   = List.length (paired st) + List.length (JS.present (ackPackets st)))%nat.
Proof.
  induction rs as [|r rs IH]; intros k st; simpl; [reflexivity|].
  rewrite IH.
  destruct (filter (matchesRequest r) (JS.present (ackPackets st)))
    as [|x rest] eqn:Hf.
  - now rewrite (pairRequest_nomatch r k st Hf).
  - destruct (pairRequest_match r k st x rest Hf)
      as (l1 & l2 & E1 & E2 & _ & E4 & _).
    rewrite E1, E2, E4, !length_app. simpl. lia.
Qed.

(** The requests still in the array after the loop are the ones the
    loop wrote to [unpaired]. *)
Lemma foldRequests_left rs : forall pre st,
  requestPackets st = pre ++ map Some rs ->
  unpaired st = map toPacketData (JS.present pre) ->
  unpaired (foldRequests rs (List.length pre) st)
  = map toPacketData
      (JS.present (requestPackets (foldRequests rs (List.length pre) st))).
Proof.
  induction rs as [|r rs IH]; intros pre st Harr Hun; simpl.
  - rewrite Harr. simpl. now rewrite app_nil_r.
  - destruct (filter (matchesRequest r) (JS.present (ackPackets st)))
      as [|x rest] eqn:Hf.
    + rewrite (pairRequest_nomatch r (List.length pre) st Hf).
      specialize (IH (pre ++ [Some r])). rewrite length_app in IH.
      simpl in IH. rewrite Nat.add_1_r in IH. apply IH; simpl.
      * now rewrite Harr, <- app_assoc.
      * rewrite Hun, present_app, map_app. reflexivity.
    + destruct (pairRequest_match r (List.length pre) st x rest Hf)
        as (_ & _ & _ & _ & E3 & _ & E5).
      specialize (IH (pre ++ [None])). rewrite length_app in IH.
      simpl in IH. rewrite Nat.add_1_r in IH. apply IH.
      * rewrite E3, Harr. simpl. unfold JS.deleteAt.
        destruct (Z.ltb_spec (Z.of_nat (List.length pre)) 0); [lia|].
        now rewrite Nat2Z.id, deleteNth_app_here, <- app_assoc.
      * rewrite E5, Hun, present_app. simpl. now rewrite app_nil_r.
Qed.

(** The shape of [unpaired]: the unmatched requests, the replies left
    over, and the unmatched requests once more. *)
Lemma unpairedPackets_shape l :
  unpairedPackets (pairPackets l)
  = unpaired (afterLoop l)
    ++ map toPacketData (JS.present (ackPackets (afterLoop l)))
    ++ unpaired (afterLoop l).
Proof.
  simpl. rewrite !leftover_present_eq, <- app_assoc. do 2 f_equal.
  rewrite afterLoop_fold. symmetry.
  apply (foldRequests_left (filter isRequest l) [] (startState l));
    reflexivity.
Qed.

Lemma afterLoop_request_count l :
  (List.length (paired (afterLoop l)) + List.length (unpaired (afterLoop l))
   = List.length (filter isRequest l))%nat.
Proof.
  rewrite afterLoop_fold.
  pose proof (foldRequests_perm (filter isRequest l) 0 (startState l)) as H.
  apply Permutation_length in H.
  rewrite !length_app, !length_map in H. simpl in H. lia.
Qed.

Lemma afterLoop_reply_count l :
  (List.length (paired (afterLoop l))
   + List.length (JS.present (ackPackets (afterLoop l)))
   = List.length (filter isAck l))%nat.
Proof.
  rewrite afterLoop_fold, foldRequests_counts. simpl.
  now rewrite present_map_Some.
Qed.

(** X1.  [unpaired] holds every unmatched request twice: it is the
    unmatched requests [u], then the replies left over [a], then [u]
    again.  The pairs and [u] number as many as the candidate requests,
    the pairs and [a] as many as the candidate replies. *)
Theorem X1_unmatched_requests_twice (l : list ParsedData) :
  exists u a,
    unpairedPackets (pairPackets l) = u ++ a ++ u /\
    (List.length (pairedPackets (pairPackets l)) + List.length u
     = List.length (filter isRequest l))%nat /\
    (List.length (pairedPackets (pairPackets l)) + List.length a
     = List.length (filter isAck l))%nat.
Proof.
  exists (unpaired (afterLoop l)),
         (map toPacketData (JS.present (ackPackets (afterLoop l)))).
  split; [apply unpairedPackets_shape|]. split.
  - apply afterLoop_request_count.
  - rewrite length_map. apply afterLoop_reply_count.
Qed.

Lemma subseq_refl {A} (l : list A) : subseq l l.
Proof. induction l; [apply subseq_nil | now apply subseq_keep]. Qed.

Lemma subseq_nil_l {A} (l : list A) : subseq [] l.
Proof. induction l; constructor; auto. Qed.

Lemma subseq_trans {A} (a b c : list A) :
  subseq a b -> subseq b c -> subseq a c.
Proof.
  intros Hab Hbc. revert a Hab.
  induction Hbc as [|x b c Hbc IH|x b c Hbc IH]; intros a Hab.
  - exact Hab.
  - constructor. now apply IH.
  - inversion Hab; subst; [apply subseq_skip | apply subseq_keep];
      now apply IH.
Qed.

Lemma subseq_remove {A} (l1 l2 : list A) (x : A) :
  subseq (l1 ++ l2) (l1 ++ x :: l2).
Proof.
  induction l1; simpl;
    [apply subseq_skip, subseq_refl | now apply subseq_keep].
Qed.

Lemma subseq_map {A B} (f : A -> B) (a b : list A) :
  subseq a b -> subseq (map f a) (map f b).
Proof.
  induction 1; simpl;
    [apply subseq_nil | now apply subseq_skip | now apply subseq_keep].
Qed.

(** The loop goes through the requests in order and appends: what it
    adds to [paired] and to [unpaired] follows the order of the
    requests, and the replies it leaves keep their order. *)
Lemma foldRequests_order rs : forall k st,
  exists P U,
    paired (foldRequests rs k st) = paired st ++ P /\
    unpaired (foldRequests rs k st) = unpaired st ++ U /\
    subseq (map request P) (map toPacketData rs) /\
    subseq U (map toPacketData rs) /\
    subseq (JS.present (ackPackets (foldRequests rs k st)))
           (JS.present (ackPackets st)).
Proof.
  induction rs as [|r rs IH]; intros k st; simpl.
  - exists [], []. rewrite !app_nil_r.
    repeat split; auto using subseq_refl; constructor.
  - destruct (IH (S k) (pairRequest r k st)) as (P & U & EP & EU & SP & SU & SA).
    destruct (filter (matchesRequest r) (JS.present (ackPackets st)))
      as [|x rest] eqn:Hf.
    + rewrite (pairRequest_nomatch r k st Hf) in *. simpl in *.
      exists P, (toPacketData r :: U). rewrite EP, EU, <- app_assoc.
      repeat split; auto; [now apply subseq_skip | now apply subseq_keep].
    + destruct (pairRequest_match r k st x rest Hf)
        as (l1 & l2 & E1 & E2 & _ & E4 & E5).
      exists ({| request := toPacketData r; response := toPacketData x |} :: P), U.
      rewrite EP, EU, E4, E5, <- app_assoc. repeat split; auto.
      * simpl. now apply subseq_keep.
      * now apply subseq_skip.
      * eapply subseq_trans; [exact SA|]. rewrite E1, E2.
        apply subseq_remove.
Qed.

(** X2.  The outputs keep the order of the input: the requests of the
    pairs follow the order of the candidate requests, and so do the
    unmatched requests [u]; the replies left over [a] follow the order of
    the candidate replies; [unpaired] is [u], then [a], then [u]. *)
Theorem X2_outputs_in_input_order (l : list ParsedData) :
  exists u a,
    unpairedPackets (pairPackets l) = u ++ a ++ u /\
    subseq (map request (pairedPackets (pairPackets l)))
           (map toPacketData (filter isRequest l)) /\
    subseq u (map toPacketData (filter isRequest l)) /\
    subseq a (map toPacketData (filter isAck l)).
Proof.
  exists (unpaired (afterLoop l)),
         (map toPacketData (JS.present (ackPackets (afterLoop l)))).
  split; [apply unpairedPackets_shape|].
  simpl pairedPackets. rewrite afterLoop_fold.
  destruct (foldRequests_order (filter isRequest l) 0 (startState l))
    as (P & U & EP & EU & SP & SU & SA).
  rewrite EP, EU. simpl in *. rewrite present_map_Some in SA.
  repeat split; auto. now apply subseq_map.
Qed.

(** Two replies that qualify for one request have the same key. *)
Lemma matchesRequest_key rq p q :
  matchesRequest rq p = true -> matchesRequest rq q = true -> key p = key q.
Proof.
  intros Hp Hq. apply matchesRequest_spec in Hp as [Hps Hpd].
  apply matchesRequest_spec in Hq as [Hqs Hqd]. unfold key. f_equal.
  - congruence.
  - destruct (direction p), (direction q), (direction rq); congruence.
Qed.

Lemma filter_match_unique rq (l : list ParsedData) :
  NoDup (map key l) ->
  forall x rest, filter (matchesRequest rq) l = x :: rest -> rest = [].
Proof.
  induction l as [|a l IH]; intros Hnd x rest; simpl; [discriminate|].
  inversion Hnd as [|? ? Hnotin Hnd']; subst.
  destruct (matchesRequest rq a) eqn:Ha; [|now apply IH].
  intros [= <- <-].
  destruct (filter (matchesRequest rq) l) as [|y ys] eqn:Hf; [reflexivity|].
  exfalso. apply Hnotin.
  assert (Hy : In y (filter (matchesRequest rq) l)) by (rewrite Hf; now left).
  apply filter_In in Hy as [Hy Hm].
  rewrite (matchesRequest_key rq a y Ha Hm). now apply in_map.
Qed.

(** With keys that tell the replies apart, the reply that is paired is
    the reply that leaves the array. *)
Lemma foldRequests_replies rs : forall k st,
  NoDup (map key (JS.present (ackPackets st))) ->
  Permutation
    (map response (paired (foldRequests rs k st))
     ++ map toPacketData (JS.present (ackPackets (foldRequests rs k st))))
    (map response (paired st)
     ++ map toPacketData (JS.present (ackPackets st))).
Proof.
  induction rs as [|r rs IH]; intros k st Hnd; simpl; [reflexivity|].
  destruct (filter (matchesRequest r) (JS.present (ackPackets st)))
    as [|x rest] eqn:Hf.
  - rewrite IH; now rewrite (pairRequest_nomatch r k st Hf).
  - pose proof (filter_match_unique r _ Hnd x rest Hf) as ->.
    destruct (pairRequest_match r k st x [] Hf)
      as (l1 & l2 & E1 & E2 & _ & E4 & _). simpl in E1.
    rewrite IH.
    + rewrite E1, E2, E4, !map_app. simpl. rewrite <- !app_assoc.
      apply Permutation_app_head. simpl.
      apply (Permutation_middle (map toPacketData l1)).
    + rewrite E2. rewrite E1, map_app in Hnd. simpl in Hnd.
      apply NoDup_remove_1 in Hnd. now rewrite map_app.
Qed.

(** X3.  When no two candidate replies have the same sequence
    identifier and direction, every candidate reply is accounted for
    once: the replies of the pairs together with the replies left over
    in [unpaired] are the candidate replies. *)
Theorem X3_distinct_replies_accounted_once (l : list ParsedData) :
  NoDup (map key (filter isAck l)) ->
  exists u a,
    unpairedPackets (pairPackets l) = u ++ a ++ u /\
    Permutation (map response (pairedPackets (pairPackets l)) ++ a)
                (map toPacketData (filter isAck l)).
Proof.
  intros Hnd.
  exists (unpaired (afterLoop l)),
         (map toPacketData (JS.present (ackPackets (afterLoop l)))).
  split; [apply unpairedPackets_shape|].
  simpl pairedPackets. rewrite afterLoop_fold.
  etransitivity; [apply foldRequests_replies|]; simpl;
    now rewrite present_map_Some.
Qed.

Lemma X3_distinct_replies_accounted_once_witness :
  exists u a,
    unpairedPackets
      (pairPackets [Sample.req "1" 7; Sample.ack "2" 7 0;
                    Sample.ack "3" 8 0; Sample.req "4" 9])
    = u ++ a ++ u /\
    Permutation
      (map response
         (pairedPackets
            (pairPackets [Sample.req "1" 7; Sample.ack "2" 7 0;
                          Sample.ack "3" 8 0; Sample.req "4" 9])) ++ a)
      (map toPacketData [Sample.ack "2" 7 0; Sample.ack "3" 8 0]).
Proof.
  apply (X3_distinct_replies_accounted_once
           [Sample.req "1" 7; Sample.ack "2" 7 0;
            Sample.ack "3" 8 0; Sample.req "4" 9]).
  simpl. repeat constructor; simpl; intuition discriminate.
Defined.

End PairingMore.

(** ** More on the extractor and the reassembler *)

Section ReassemblyMore.
Import Reassembly ReassemblySpec MoreSpec.
Local Open Scope string_scope.
Local Open Scope Z_scope.

Variable fromHexString : string -> option Packet.

(** What one call of the extractor pushes: valid packets, and after
    them the invalid packet that ended the call, if one did. *)
Lemma extractLoop_shape fuel hex d ts st e :
  extractLoop fromHexString fuel hex d ts st = Returns e ->
  exists good,
    Forall (producedBy ts d) good /\
    match exitWhy e with
    | DecodeFailed => results (exitState e) = (results st ++ good)%list
    | InvalidPacket =>
        exists bad,
          results (exitState e) = (results st ++ good ++ [bad])%list /\
          timestamp bad = ts /\ direction bad = d /\
          isValid (packet bad) = false /\
          currentHexString d (exitState e)
          = if JS.startsWith "55" (exitHex e) then exitHex e else ""
    end.
Proof.
  apply (extractLoop_rule fromHexString d ts
    (fun _ s => exists good,
       Forall (producedBy ts d) good /\
       results s = (results st ++ good)%list)
    (fun e => exists good,
       Forall (producedBy ts d) good /\
       match exitWhy e with
       | DecodeFailed => results (exitState e) = (results st ++ good)%list
       | InvalidPacket =>
           exists bad,
             results (exitState e) = (results st ++ good ++ [bad])%list /\
             timestamp bad = ts /\ direction bad = d /\
             isValid (packet bad) = false /\
             currentHexString d (exitState e)
             = if JS.startsWith "55" (exitHex e) then exitHex e else ""
       end)).
  - intros h s (good & Hg & Hr) _. exists good. auto.
  - intros h s p0 p (good & Hg & Hr) _ _ hex' st2.
    assert (Hres : results st2
                   = (results st ++ good ++ [mkParsedData ts d p])%list).
    { unfold st2. rewrite results_setBuffer. simpl.
      now rewrite Hr, <- app_assoc. }
    split.
    + intros Hv. exists good. split; [exact Hg|]. simpl.
      exists (mkParsedData ts d p). repeat split; auto.
      unfold st2. now rewrite currentHexString_setBuffer.
    + intros Hv _. exists (good ++ [mkParsedData ts d p])%list.
      split; [|exact Hres]. apply Forall_app. split; [exact Hg|].
      constructor; [|constructor]. now repeat split.
  - exists []. split; [constructor | now rewrite app_nil_r].
Qed.

(** X4.  A call of the extractor that ends on an invalid packet has
    pushed that packet all the same, after the valid packets taken off
    the front of the buffer, and has passed over its bytes like theirs:
    the text the call stops at is the buffer less the bytes of all the
    packets pushed, and the carry-over buffer is that text when it begins
    with [55], and is empty otherwise.  (The lengths declared are counts
    of bytes.) *)
Theorem X4_invalid_packet_is_pushed
    (hex : string) (d : Direction) (ts : string) (st : State) (e : Exit) :
  lengthsAreCounts fromHexString ->
  runExtractor fromHexString hex d ts st = Returns e ->
  exitWhy e = InvalidPacket ->
  exists ps h p0 bad,
    taken fromHexString hex ps h /\
    fromHexString h = Some p0 /\
    acceptedBySpec fromHexString h p0 = Some bad /\
    isValid bad = false /\
    results (exitState e) = (results st ++ stamped ts d (ps ++ [bad]))%list /\
    exitHex e = JS.drop (Z.to_nat (p_length bad * 2)) h /\
    exitHex e = withoutConsumed hex (stamped ts d (ps ++ [bad])) /\
    currentHexString d (exitState e) = keptIfSynced (exitHex e).
Proof.
  intros Hlen Hrun Hwhy. unfold runExtractor in Hrun.
  apply (extractLoop_exact fromHexString) in Hrun
    as (ps & Hends & Hres & Hbuf); [|exact Hlen].
  pose proof (callEnds_consumed fromHexString ts d _ _ _ _ Hlen Hends)
    as Hcons.
  rewrite Hwhy in Hends.
  inversion Hends as [|ps' h p0 bad Ht Hd Ha Hv E1 E2]; subst ps.
  exists ps', h, p0, bad. repeat split; auto.
  - now rewrite E2.
  - rewrite E2, Hbuf. now destruct ps'.
Qed.

Lemma slice_empty b e : JS.slice "" b e = "".
Proof.
  unfold JS.slice.
  assert (Hd : forall n, JS.drop n "" = "") by now intros [].
  assert (Ht : forall n, JS.take n "" = "") by now intros [].
  now rewrite Hd, Ht.
Qed.

(** The second decode either was not made or decoded a slice. *)
Lemma redecode_source hex p0 p :
  fromHexString hex = Some p0 ->
  redecode fromHexString hex p0 = Some p ->
  exists s, fromHexString s = Some p /\ (s <> "" -> hex <> "").
Proof.
  intros Hdec. unfold redecode.
  destruct (negb (isValid p0) && (p_length p0 <? JS.len hex * 2)).
  - intros H. exists (JS.slice hex 0 (p_length p0 * 2)). split; [exact H|].
    intros Hs ->. apply Hs, slice_empty.
  - intros [= <-]. exists hex. auto.
Qed.

Lemma extractLoop_returns d ts :
  makesProgress fromHexString -> survivesTruncation fromHexString ->
  forall fuel hex st,
    (String.length hex < fuel)%nat ->
    exists e, extractLoop fromHexString fuel hex d ts st = Returns e.
Proof.
  intros Hprog Hsafe. induction fuel as [|fuel IH]; intros hex st Hfuel; [lia|].
  simpl. destruct (fromHexString hex) as [p0|] eqn:Hdec; [|eauto].
  destruct (redecode fromHexString hex p0) as [p|] eqn:Hre;
    [|now elim (Hsafe hex p0 Hdec)].
  destruct (isValid p) eqn:Hv; [|eauto].
  destruct (redecode_source hex p0 p Hdec Hre) as (s & Hs & Hne).
  destruct (Hprog s p Hs Hv) as [Hpos Hs'].
  assert (Hlt : (String.length (JS.sliceFrom hex (p_length p * 2))
                 < String.length hex)%nat).
  { rewrite sliceFrom_nonneg by lia. rewrite length_drop.
    destruct hex; [now elim (Hne Hs')|]. simpl String.length. lia. }
  destruct (Z.ltb_spec (JS.len (JS.sliceFrom hex (p_length p * 2)))
                       (JS.len hex)) as [_|Hge];
    [|unfold JS.len in Hge; lia].
  apply IH. lia.
Qed.

(** X5.  With a decoder whose valid packets take up room and whose
    second decode does not throw, and a trace in which no payload record
    lacks the direction or the payload column, the run goes through:
    [parseCSV] resolves. *)
Theorem X5_run_resolves (rows : list (list string)) :
  makesProgress fromHexString -> survivesTruncation fromHexString ->
  Forall (fun row => shortRow row = false) rows ->
  exists parsed, parseCSV fromHexString rows = Returns parsed.
Proof.
  intros Hprog Hsafe Hrows. unfold parseCSV.
  assert (H : forall st, exists st', feed fromHexString rows st = Returns st').
  { induction Hrows as [|row rows Hrow _ IH]; intros st; simpl; [eauto|].
    assert (Hon : exists st1, onData fromHexString row st = Returns st1).
    { unfold onData, processBuffer, runExtractor.
      destruct (ingest row st) as [st0| |d ts st1] eqn:Hi; [eauto| |].
      - exfalso. revert Hi Hrow. unfold ingest, shortRow.
        destruct (nth_error row 0) as [marker|]; [|discriminate].
        destruct (String.eqb marker "0"); [|discriminate].
        destruct (nth_error row 9) as [token|]; [|discriminate].
        destruct (JS.includes "IN" token || JS.includes "OUT" token);
          [|discriminate].
        destruct (nth_error row 10) as [payload|]; [|discriminate].
        simpl. destruct (JS.len (JS.removeWhiteSpace payload) =? 0);
          [discriminate|].
        destruct (appendChunk _ _ _); [|discriminate].
        destruct (JS.len _ =? 0); discriminate.
      - destruct (extractLoop_returns d ts Hprog Hsafe
                    (S (String.length (currentHexString d st1)))
                    (currentHexString d st1) st1 (Nat.lt_succ_diag_r _))
          as [e ->]. eauto. }
    destruct Hon as [st1 ->]. apply IH. }
  destruct (H initial) as [st' ->]. eauto.
Qed.






(** X6.  A valid packet of length 0, or a valid packet decoded from the
    empty text, hangs the extractor: every pass pushes the packet and
    leaves the text as it was, so after any number of passes the loop is
    still running on the same text, with the packet pushed once per
    pass. *)
Theorem X6_zero_length_packet_hangs
    (n : nat) (hex : string) (p : Packet) (d : Direction) (ts : string)
    (st : State) :
  fromHexString hex = Some p -> isValid p = true ->
  p_length p = 0 \/ hex = "" ->
  exists st',
    Passes.passes fromHexString n hex d ts st = Passes.Goes hex st' /\
    results st' = (results st ++ repeat (mkParsedData ts d p) n)%list.
Proof.
  intros Hdec Hv Hz.
  assert (E : JS.sliceFrom hex (p_length p * 2) = hex).
  { destruct Hz as [-> | ->]; [|apply slice_empty].
    now rewrite sliceFrom_nonneg by lia. }
  assert (Hre : redecode fromHexString hex p = Some p)
    by (unfold redecode; now rewrite Hv).
  revert st. induction n as [|n IH]; intros st.
  - exists st. simpl. now rewrite app_nil_r.
  - simpl. unfold Passes.onePass. rewrite Hdec, Hre, Hv, E.
    destruct (IH (setBuffer d (if JS.startsWith "55" hex then hex else "")
                    (pushResult (mkParsedData ts d p) st)))
      as (st' & Hp & Hr).
    exists st'. split; [exact Hp|]. rewrite Hr, results_setBuffer. simpl.
    now rewrite <- app_assoc.
Qed.



Lemma nth_error_3_of_9 (row : list string) token :
  nth_error row 9 = Some token ->
  nth_error row 3 = Some (nth 3 row EmptyString).
Proof.
  intros H. apply nth_error_nth'.
  assert (9 < List.length row)%nat by (apply nth_error_Some; congruence).
  lia.
Qed.

Lemma appendChunk_setBuffer d h st st1 :
  appendChunk d h st = Some st1 -> exists x, st1 = setBuffer d x st.
Proof.
  unfold appendChunk.
  destruct (JS.len (currentHexString d st) =? 0);
    [destruct (JS.indexOf "55" h =? -1); [discriminate|]|];
    intros [= <-]; eauto.
Qed.

Lemma counters_setBuffer d x st :
  processed (setBuffer d x st) = processed st /\
  skipped (setBuffer d x st) = skipped st.
Proof. now destruct d. Qed.

(** What the handler has done to its variables when it is about to
    skip the row, to throw, or to call the extractor. *)
Lemma ingest_facts row st :
  match ingest row st with
  | Skipped st' =>
      results st' = results st /\
      processed st' = processed st /\ skipped st' = skipped st + 1 /\
      (forall d, (forall token, nth_error row 9 = Some token ->
                                d <> directionOf token) ->
                 currentHexString d st' = currentHexString d st)
  | Failed => shortRow row = true
  | Handed d ts st1 =>
      results st1 = results st /\
      processed st1 = processed st /\ skipped st1 = skipped st /\
      stamps row ts d /\
      (forall d', d' <> d ->
                  currentHexString d' st1 = currentHexString d' st)
  end.
Proof.
  assert (Hskip : results (skip st) = results st /\
            processed (skip st) = processed st /\
            skipped (skip st) = skipped st + 1 /\
            (forall d, (forall token, nth_error row 9 = Some token ->
                                      d <> directionOf token) ->
                       currentHexString d (skip st) = currentHexString d st)).
  { repeat split. }
  unfold ingest, shortRow.
  destruct (nth_error row 0) as [marker|] eqn:H0; [|exact Hskip].
  destruct (String.eqb_spec marker "0") as [->|_]; [|exact Hskip].
  destruct (nth_error row 9) as [token|] eqn:H9; [|reflexivity].
  destruct (JS.includes "IN" token || JS.includes "OUT" token);
    [|exact Hskip].
  destruct (nth_error row 10) as [payload|]; [|reflexivity]. simpl.
  destruct (JS.len (JS.removeWhiteSpace payload) =? 0); [exact Hskip|].
  fold (directionOf token).
  destruct (appendChunk (directionOf token) (JS.removeWhiteSpace payload) st)
    as [st1|] eqn:Ha; [|exact Hskip].
  destruct (appendChunk_setBuffer _ _ _ _ Ha) as [x ->].
  destruct (counters_setBuffer (directionOf token) x st) as [Hp Hs].
  destruct (JS.len _ =? 0).
  - repeat split; try (now destruct (directionOf token)).
    intros d Hd. rewrite currentHexString_skip.
    apply currentHexString_setBuffer_other. now apply Hd.
  - repeat split; auto using results_setBuffer.
    + eapply nth_error_3_of_9; eauto.
    + eauto.
    + intros d' Hd. now apply currentHexString_setBuffer_other.
Qed.

(** One row: packets are only added, each stamped by the row; one of the
    two counters goes up by one; the buffer of the other direction is
    left alone. *)
Lemma onData_facts row st st' :
  onData fromHexString row st = Returns st' ->
  (exists new, results st' = (results st ++ new)%list /\
     Forall (fun r => stamps row (timestamp r) (direction r)) new) /\
  processed st' + skipped st' = processed st + skipped st + 1 /\
  (forall d, (forall token, nth_error row 9 = Some token ->
                            d <> directionOf token) ->
             currentHexString d st' = currentHexString d st).
Proof.
  unfold onData, processBuffer, runExtractor.
  pose proof (ingest_facts row st) as Hi.
  destruct (ingest row st) as [st0| |d ts st1]; [| discriminate |].
  - intros [= <-]. destruct Hi as (Hr & Hp & Hs & Hb). split; [|split].
    + exists []. rewrite app_nil_r. split; [exact Hr | constructor].
    + lia.
    + exact Hb.
  - destruct (extractLoop _ _ _ _ _ _) as [e| |] eqn:He; try discriminate.
    intros [= <-]. destruct Hi as (Hr & Hp & Hs & Hst & Hb).
    pose proof (extractLoop_counters _ _ _ _ _ _ _ He) as [Hs' Hp'].
    pose proof (extractLoop_buffers _ _ _ _ _ _ _ He) as [Ho _].
    apply extractLoop_shape in He as (good & Hg & Hm).
    split; [|split].
    + assert (Hgood : Forall (fun r => stamps row (timestamp r) (direction r))
                             good).
      { eapply Forall_impl; [|exact Hg].
        intros r (Ht & Hd & _). now rewrite Ht, Hd. }
      simpl. rewrite <- Hr. destruct (exitWhy e).
      * exists good. auto.
      * destruct Hm as (bad & Hres & Ht & Hd & _).
        exists (good ++ [bad])%list. split; [exact Hres|].
        apply Forall_app. split; [exact Hgood|].
        constructor; [|constructor]. now rewrite Ht, Hd.
    + simpl. lia.
    + intros d0 Hd0. rewrite currentHexString_countProcessed.
      destruct Hst as (_ & _ & token & H9 & ->).
      rewrite Ho by eauto. apply Hb. eauto.
Qed.

Lemma feed_app a : forall b st,
  feed fromHexString (a ++ b) st
  = match feed fromHexString a st with
    | Returns st1 => feed fromHexString b st1
    | Throws => Throws
    | Diverges => Diverges
    end.
Proof.
  induction a as [|row a IH]; intros b st; simpl; [reflexivity|].
  destruct (onData fromHexString row st); auto.
Qed.

Lemma feed_facts rows : forall st st',
  feed fromHexString rows st = Returns st' ->
  (exists new, results st' = (results st ++ new)%list /\
     Forall (fun r => exists row, In row rows /\
                        stamps row (timestamp r) (direction r)) new) /\
  processed st' + skipped st'
  = processed st + skipped st + Z.of_nat (List.length rows).
Proof.
  induction rows as [|row rows IH]; intros st st'; simpl.
  - intros [= <-]. split; [|lia]. exists []. rewrite app_nil_r.
    split; [reflexivity | constructor].
  - destruct (onData fromHexString row st) as [st1| |] eqn:Hon;
      try discriminate.
    intros Hfeed.
    destruct (onData_facts row st st1 Hon) as ((n1 & E1 & F1) & C1 & _).
    destruct (IH st1 st' Hfeed) as ((n2 & E2 & F2) & C2).
    split; [|lia]. exists (n1 ++ n2)%list. split.
    + now rewrite E2, E1, <- app_assoc.
    + apply Forall_app. split.
      * eapply Forall_impl; [|exact F1]. intros r Hr. exists row. auto.
      * eapply Forall_impl; [|exact F2].
        intros r (row' & Hin & Hr). exists row'. auto.
Qed.

(** X7.  When the run resolves, every row of the trace was counted
    once, as processed or as skipped. *)
Theorem X7_every_row_counted (rows : list (list string)) (st : State) :
  feed fromHexString rows initial = Returns st ->
  processed st + skipped st = Z.of_nat (List.length rows).
Proof.
  intros H. apply feed_facts in H as [_ H]. simpl in H. lia.
Qed.

(** X8.  Every packet [parseCSV] resolves with carries the timestamp
    ([row[3]]) and the direction (read off [row[9]]: [RX] when the token
    holds [IN], [TX] otherwise) of a payload record of the trace. *)
Theorem X8_packets_stamped_by_rows
    (rows : list (list string)) (parsed : list ParsedData) (r : ParsedData) :
  parseCSV fromHexString rows = Returns parsed ->
  In r parsed ->
  exists row, In row rows /\ stamps row (timestamp r) (direction r).
Proof.
  unfold parseCSV.
  destruct (feed fromHexString rows initial) as [st| |] eqn:Hfeed;
    try discriminate.
  intros [= <-] Hin.
  apply feed_facts in Hfeed as [(new & E & F) _]. simpl in E.
  rewrite E in Hin. exact (proj1 (Forall_forall _ _) F r Hin).
Qed.

(** X9.  A row leaves the buffer of the other direction as it was. *)
Theorem X9_other_buffer_untouched
    (row : list string) (token : string) (st st' : State) :
  nth_error row 9 = Some token ->
  onData fromHexString row st = Returns st' ->
  forall d, d <> directionOf token ->
            currentHexString d st' = currentHexString d st.
Proof.
  intros H9 Hon d Hd. apply onData_facts in Hon as (_ & _ & Hb).
  apply Hb. intros token' H9'. congruence.
Qed.

Lemma shortRow_throws row st :
  shortRow row = true -> onData fromHexString row st = Throws.
Proof.
  unfold onData, ingest, shortRow.
  destruct (nth_error row 0) as [marker|]; [|discriminate].
  destruct (String.eqb marker "0"); [|discriminate].
  destruct (nth_error row 9) as [token|]; [|reflexivity].
  destruct (JS.includes "IN" token || JS.includes "OUT" token);
    [|discriminate].
  destruct (nth_error row 10); [discriminate | reflexivity].
Qed.

(** X10.  A payload record that lacks the direction column, or the
    payload column when its direction is classified, makes the handler
    throw; the run stops there, and neither [parseCSV] nor
    [parseAndPairCSV] resolves, whatever was decoded before and whatever
    follows. *)
Theorem X10_short_row_aborts_run
    (before after : list (list string)) (row : list string)
    (parsed : list ParsedData) :
  parseCSV fromHexString before = Returns parsed ->
  shortRow row = true ->
  parseCSV fromHexString (before ++ row :: after) = Throws /\
  Pipeline.parseAndPairCSV fromHexString (before ++ row :: after) = Throws.
Proof.
  unfold Pipeline.parseAndPairCSV, parseCSV. rewrite feed_app.
  destruct (feed fromHexString before initial) as [st| |]; try discriminate.
  intros _ Hshort. simpl. now rewrite (shortRow_throws row st Hshort).
Qed.

(** X11.  What was decoded from the beginning of a trace stays: the
    packets of a run over the whole trace begin with the packets of the
    run over any of its beginnings, which resolves too. *)
Theorem X11_results_only_grow
    (before after : list (list string)) (parsed : list ParsedData) :
  parseCSV fromHexString (before ++ after) = Returns parsed ->
  exists first more,
    parseCSV fromHexString before = Returns first /\
    parsed = (first ++ more)%list.
Proof.
  unfold parseCSV. rewrite feed_app.
  destruct (feed fromHexString before initial) as [st1| |];
    try discriminate.
  destruct (feed fromHexString after st1) as [st2| |] eqn:H2;
    try discriminate.
  intros [= <-]. apply feed_facts in H2 as [(more & E & _) _].
  exists (results st1), more. auto.
Qed.

(** X12.  End to end: every entry of the three outputs of
    [parseAndPairCSV] carries the timestamp and the direction of a
    payload record of the trace. *)
Theorem X12_entries_stamped_by_rows
    (rows : list (list string)) (r : ParsedResult) (entry : PacketData) :
  Pipeline.parseAndPairCSV fromHexString rows = Returns r ->
  In entry (Pairing.allEntries r) ->
  exists row, In row rows /\
              stamps row (pd_timestamp entry) (pd_direction entry).
Proof.
  unfold Pipeline.parseAndPairCSV, parseCSV.
  destruct (feed fromHexString rows initial) as [st| |] eqn:Hfeed;
    try discriminate.
  intros [= <-] Hin.
  assert (Hp : exists p, In p (results st) /\ entry = Pairing.toPacketData p).
  { unfold Pairing.allEntries in Hin. rewrite !app_assoc in Hin.
    apply in_app_or in Hin as [Hin|Hin].
    - rewrite <- app_assoc in Hin.
      apply (pairedOrUnpaired_candidates (results st)) in Hin
        as (p & Hp & _ & ->). eauto.
    - simpl in Hin. apply in_map_iff in Hin as (p & <- & Hp).
      apply filter_In in Hp as [Hp _]. eauto. }
  destruct Hp as (p & Hp & ->).
  apply feed_facts in Hfeed as [(new & E & F) _]. simpl in E.
  rewrite E in Hp. exact (proj1 (Forall_forall _ _) F p Hp).
Qed.

End ReassemblyMore.

(** *** The stand-in decoder meets the conditions of X5 *)

Lemma demo_makesProgress : MoreSpec.makesProgress Demo.decode.
Proof.
  intros s p. unfold Demo.decode.
  destruct (JS.startsWith "55" s) eqn:Hs; [|discriminate].
  destruct (Demo.hexByte (JS.drop 2 s)) as [n|]; [|discriminate].
  destruct (Z.ltb_spec n 2); [discriminate|].
  destruct (JS.len s <? 2 * n); [discriminate|].
  intros [= <-] _. simpl. split; [lia|]. intros ->. discriminate Hs.
Qed.

Lemma length_take n : forall s,
  String.length (JS.take n s) = Nat.min n (String.length s).
Proof. induction n as [|n IH]; intros [|c s]; simpl; auto. Qed.

Lemma demo_survivesTruncation : MoreSpec.survivesTruncation Demo.decode.
Proof.
  intros s p0 Hdec. unfold Reassembly.redecode.
  destruct (negb (isValid p0) && (p_length p0 <? JS.len s * 2));
    [|discriminate].
  revert Hdec. unfold Demo.decode at 1.
  destruct (JS.startsWith "55" s) eqn:Hs; [|discriminate].
  destruct (Demo.hexByte (JS.drop 2 s)) as [n|] eqn:Hn; [|discriminate].
  destruct (Z.ltb_spec n 2); [discriminate|].
  destruct (Z.ltb_spec (JS.len s) (2 * n)) as [|Hlen]; [discriminate|].
  intros [= <-]. cbn [p_length]. rewrite slice_prefix by lia.
  destruct s as [|a [|b [|c [|e s]]]];
    try (exfalso; unfold JS.len in Hlen; cbn [String.length] in Hlen; lia).
  replace (Z.to_nat (n * 2)) with (S (S (S (S (Z.to_nat (n * 2) - 4)))))
    by lia.
  cbn [JS.take].
  rewrite (demo_decode_sync _ n) by (exact Hs || exact Hn).
  destruct (Z.ltb_spec n 2); [lia|].
  match goal with
  | |- context [JS.len ?t <? 2 * n] =>
      destruct (Z.ltb_spec (JS.len t) (2 * n)) as [Hshort|]; [|discriminate]
  end.
  exfalso. unfold JS.len in *. cbn [String.length] in *.
  rewrite length_take in Hshort. lia.
Qed.

(** *** Instances of the further properties *)

Lemma demoFlagged_lengthsAreCounts :
  ReassemblySpec.lengthsAreCounts DemoFlagged.decode.
Proof.
  intros s p. unfold DemoFlagged.decode.
  destruct (Demo.decode s) as [q|] eqn:Hq; [|discriminate].
  intros [= <-]. simpl. exact (demo_lengthsAreCounts s q Hq).
Qed.

Lemma X4_invalid_packet_is_pushed_witness :
  exists ps h p0 bad,
    ReassemblySpec.taken DemoFlagged.decode "55025503ff5502" ps h /\
    DemoFlagged.decode h = Some p0 /\
    ReassemblySpec.acceptedBySpec DemoFlagged.decode h p0 = Some bad /\
    isValid bad = false /\
    [mkParsedData "t" TX (mkPacket 2 0 2 0 true "5502");
     mkParsedData "t" TX (mkPacket 3 0 2 0 false "5503ff")]
    = ([] ++ ReassemblySpec.stamped "t" TX (ps ++ [bad]))%list /\
    "5502"%string = JS.drop (Z.to_nat (p_length bad * 2)) h /\
    "5502"%string
    = ReassemblySpec.withoutConsumed "55025503ff5502"
        (ReassemblySpec.stamped "t" TX (ps ++ [bad])) /\
    "5502"%string = ReassemblySpec.keptIfSynced "5502".
Proof.
  apply (X4_invalid_packet_is_pushed DemoFlagged.decode "55025503ff5502"
           TX "t"
           (Reassembly.setBuffer TX "55025503ff5502" Reassembly.initial)
           {| Reassembly.exitState :=
                {| Reassembly.results :=
                     [mkParsedData "t" TX (mkPacket 2 0 2 0 true "5502");
                      mkParsedData "t" TX (mkPacket 3 0 2 0 false "5503ff")];
                   Reassembly.rxCurrentHexString := "";
                   Reassembly.txCurrentHexString := "5502";
                   Reassembly.processed := 0;
                   Reassembly.skipped := 0 |};
              Reassembly.exitHex := "5502";
              Reassembly.exitWhy := Reassembly.InvalidPacket |}).
  - exact demoFlagged_lengthsAreCounts.
  - reflexivity.
  - reflexivity.
Defined.

Lemma X5_run_resolves_witness :
  exists parsed,
    Reassembly.parseCSV Demo.decode SampleTrace.rows
    = Reassembly.Returns parsed.
Proof.
  apply (X5_run_resolves Demo.decode SampleTrace.rows).
  - exact demo_makesProgress.
  - exact demo_survivesTruncation.
  - repeat constructor.
Defined.

Lemma X6_zero_length_packet_hangs_witness :
  exists st',
    Passes.passes DemoFlagged.stuck 3 "5502" RX "t" Reassembly.initial
    = Passes.Goes "5502" st' /\
    Reassembly.results st'
    = ([] ++ repeat (mkParsedData "t" RX (mkPacket 0 0 2 0 true "")) 3)%list.
Proof.
  apply (X6_zero_length_packet_hangs DemoFlagged.stuck 3 "5502"
           (mkPacket 0 0 2 0 true "") RX "t" Reassembly.initial).
  - reflexivity.
  - reflexivity.
  - left. reflexivity.
Defined.

Lemma X7_every_row_counted_witness :
  Reassembly.processed SampleTrace.final
  + Reassembly.skipped SampleTrace.final
  = Z.of_nat (List.length SampleTrace.rows).
Proof.
  apply (X7_every_row_counted Demo.decode SampleTrace.rows SampleTrace.final).
  reflexivity.
Defined.

Lemma X8_packets_stamped_by_rows_witness :
  exists row, In row SampleTrace.rows /\
              MoreSpec.stamps row "t3" RX.
Proof.
  apply (X8_packets_stamped_by_rows Demo.decode SampleTrace.rows
           [SampleTrace.first; SampleTrace.second] SampleTrace.second).
  - reflexivity.
  - simpl. right. left. reflexivity.
Defined.

Lemma X9_other_buffer_untouched_witness :
  Reassembly.currentHexString TX
    {| Reassembly.results :=
         [mkParsedData "t" RX (mkPacket 2 0 2 0 true "5502")];
       Reassembly.rxCurrentHexString := "";
       Reassembly.txCurrentHexString := "5504";
       Reassembly.processed := 1;
       Reassembly.skipped := 0 |}
  = Reassembly.currentHexString TX
      (Reassembly.setBuffer TX "5504" Reassembly.initial).
Proof.
  apply (X9_other_buffer_untouched Demo.decode (Demo.row "t" "IN" "5502")
           "IN" (Reassembly.setBuffer TX "5504" Reassembly.initial)).
  - reflexivity.
  - reflexivity.
  - discriminate.
Defined.

Lemma X10_short_row_aborts_run_witness :
  Reassembly.parseCSV Demo.decode
    (SampleTrace.rows ++ SampleTrace.cutRow :: SampleTrace.rows)
  = Reassembly.Throws /\
  Pipeline.parseAndPairCSV Demo.decode
    (SampleTrace.rows ++ SampleTrace.cutRow :: SampleTrace.rows)
  = Reassembly.Throws.
Proof.
  apply (X10_short_row_aborts_run Demo.decode SampleTrace.rows
           SampleTrace.rows SampleTrace.cutRow
           [SampleTrace.first; SampleTrace.second]).
  - reflexivity.
  - reflexivity.
Defined.

Lemma X11_results_only_grow_witness :
  exists first more,
    Reassembly.parseCSV Demo.decode [Demo.row "t1" "IN" "5502 55"]
    = Reassembly.Returns first /\
    [SampleTrace.first; SampleTrace.second] = (first ++ more)%list.
Proof.
  apply (X11_results_only_grow Demo.decode
           [Demo.row "t1" "IN" "5502 55"]
           [Demo.row "t2" "OUT" "0102"; ["1"; "header"]%string;
            Demo.row "t3" "IN" "03 01"]
           [SampleTrace.first; SampleTrace.second]).
  reflexivity.
Defined.

Lemma X12_entries_stamped_by_rows_witness :
  exists row, In row SampleTrace.rows /\
              MoreSpec.stamps row "t3" RX.
Proof.
  apply (X12_entries_stamped_by_rows Demo.decode SampleTrace.rows
           (Pairing.pairPackets [SampleTrace.first; SampleTrace.second])
           (Sample.rendered "t3" RX "550301")).
  - reflexivity.
  - simpl. right. left. reflexivity.
Defined.

(** X13.  One pass of the callback of [requestPackets.forEach] when
    some replies qualify: the request is paired with the first of them,
    and the reply taken out of the candidates is the last of them.  The
    two are the same reply only when exactly one qualifies. *)
Theorem X13_paired_first_removed_last
    (rq : ParsedData) (k : nat) (st : Pairing.PairState)
    (rs : ParsedData) (rest : list ParsedData) :
  filter (Pairing.matchesRequest rq) (JS.present (Pairing.ackPackets st))
  = rs :: rest ->
  Pairing.paired (Pairing.pairRequest rq k st)
  = Pairing.paired st
    ++ [ {| request := Pairing.toPacketData rq;
            response := Pairing.toPacketData rs |} ] /\
  exists l1 l2,
    JS.present (Pairing.ackPackets st) = l1 ++ last (rs :: rest) rs :: l2 /\
    JS.present (Pairing.ackPackets (Pairing.pairRequest rq k st)) = l1 ++ l2.
Proof.
  intros Hf.
  destruct (pairRequest_match rq k st rs rest Hf)
    as (l1 & l2 & E1 & E2 & _ & E4 & _).
  split; [exact E4|]. now exists l1, l2.
Qed.

Lemma X13_paired_first_removed_last_witness :
  Pairing.paired
    (Pairing.pairRequest (Sample.req "1" 7) 0
       (Pairing.startState
          [Sample.req "1" 7; Sample.ack "2" 7 1;
           Sample.ack "3" 8 1; Sample.ack "4" 7 1]))
  = [] ++ [ {| request := Pairing.toPacketData (Sample.req "1" 7);
               response := Pairing.toPacketData (Sample.ack "2" 7 1) |} ]
  /\ exists l1 l2,
       [Sample.ack "2" 7 1; Sample.ack "3" 8 1; Sample.ack "4" 7 1]
       = l1 ++ Sample.ack "4" 7 1 :: l2 /\
       JS.present
         (Pairing.ackPackets
            (Pairing.pairRequest (Sample.req "1" 7) 0
               (Pairing.startState
                  [Sample.req "1" 7; Sample.ack "2" 7 1;
                   Sample.ack "3" 8 1; Sample.ack "4" 7 1])))
       = l1 ++ l2.
Proof.
  apply (X13_paired_first_removed_last (Sample.req "1" 7) 0
           (Pairing.startState
              [Sample.req "1" 7; Sample.ack "2" 7 1;
               Sample.ack "3" 8 1; Sample.ack "4" 7 1])
           (Sample.ack "2" 7 1) [Sample.ack "4" 7 1]).
  reflexivity.
Defined.
